(** * The prompt-to-video pipeline and the talking chatbot

    A shallow embedding of the two programs published on the site:

    - [Video]: the FastAPI service of [dall-e-murf.mdx]
      ([get_script], [get_image], [get_voiceover_url], [download_file],
      [get_final_video], [get_ai_video]);
    - [Chat]: the React component of [gpt-murf.mdx]
      ([GPTForm] with [handlePromptSubmit] and its siblings).

    Both programs are glue around hosted services.  The services, the
    JSON parser and the codecs are not part of the programs: they are
    fields of a [Services] record, and every statement below is
    quantified over it.  What the libraries do around them is modelled
    after the libraries: the files [write_videofile] makes and removes
    (moviepy 1.x), and the renders of the component, which show an
    update of the state only after the handler that made it has run
    (React 18). *)

From Stdlib Require Import QArith Qround.
From stdpp Require Import gmap strings list pretty.

Set Warnings "-register-all,-clear-no-such-hyp".

Local Open Scope string_scope.

(** * Part I: the video service (Python) *)

Module Video.

(** ** Python values *)

(** The objects [json.loads] can build, which are also the only objects the
    service passes around.  A [VDict] lists its bindings in insertion
    order (iteration order of a Python dict); lookup takes the first
    binding of a key. *)
Inductive value :=
| VNone
| VBool (b : bool)
| VInt (n : Z)
| VFloat (q : Q)
| VStr (s : string)
| VList (items : list value)
| VDict (bindings : list (string * value)).

Inductive exn :=
| KeyError (key : string)
| TypeError (msg : string)
| IndexError (msg : string)
| ValueError (msg : string)
| JSONDecodeError
| HTTPError (status_code : nat)
| OSError (msg : string)
| ServiceError (origin : string) (detail : string).

Definition result (A : Type) : Type := exn + A.

Fixpoint dict_get (bindings : list (string * value)) (key : string)
  : option value :=
  match bindings with
  | [] => None
  | (k, v) :: rest => if decide (k = key) then Some v else dict_get rest key
  end.

(** [type(obj).__name__]. *)
Definition type_name (obj : value) : string :=
  match obj with
  | VNone => "NoneType"
  | VBool _ => "bool"
  | VInt _ => "int"
  | VFloat _ => "float"
  | VStr _ => "str"
  | VList _ => "list"
  | VDict _ => "dict"
  end.

(** [obj[key]] for a string key; the messages are those of CPython 3.11
    and later. *)
Definition py_getitem (obj : value) (key : string) : result value :=
  match obj with
  | VDict bindings =>
      match dict_get bindings key with
      | Some v => inr v
      | None => inl (KeyError key)
      end
  | VList _ => inl (TypeError "list indices must be integers or slices, not str")
  | VStr _ => inl (TypeError "string indices must be integers, not 'str'")
  | VNone | VBool _ | VInt _ | VFloat _ =>
      inl (TypeError ("'" +:+ type_name obj +:+ "' object is not subscriptable"))
  end.

(** [for item in obj]: the items the loop visits. *)
Definition py_iter (obj : value) : result (list value) :=
  match obj with
  | VList items => inr items
  | VDict bindings => inr ((λ kv, VStr kv.1) <$> bindings)
  | VStr s => inr ((λ c, VStr (String c EmptyString)) <$> Strings.String.list_ascii_of_string s)
  | VNone | VBool _ | VInt _ | VFloat _ =>
      inl (TypeError ("'" +:+ type_name obj +:+ "' object is not iterable"))
  end.

(** [l[0]] on a list returned by a client library. *)
Definition py_first {A} (l : list A) : result A :=
  match l with
  | x :: _ => inr x
  | [] => inl (IndexError "list index out of range")
  end.

(** [int(x)] of a float: truncation towards zero. *)
Definition py_int (x : Q) : Z := Z.quot (Qnum x) (Z.pos (Qden x)).

(** ** Media objects (moviepy) *)

Record AudioFileClip := {
  audio_filename : string;
  audio_duration : Q;
}.

(** An [ImageClip]: the picture is read when the clip is built. *)
Record VideoClip := {
  clip_img : list Byte.byte;
  clip_duration : Z;
  clip_audio : option AudioFileClip;
}.

Definition set_audio (clip : VideoClip) (a : AudioFileClip) : VideoClip :=
  {| clip_img := clip_img clip;
     clip_duration := clip_duration clip;
     clip_audio := Some a |}.

(** A [CompositeAudioClip]: sound tracks, each with the instant it
    starts. *)
Definition CompositeAudioClip : Type := list (AudioFileClip * Z).

(** The clip built by [concatenate_videoclips]: its parts, the instant
    each one starts, its length, and its sound, if it has any. *)
Record CompositeVideoClip := {
  clips : list VideoClip;
  start_times : list Z;
  duration : Z;
  audio : option CompositeAudioClip;
}.

(** [np.cumsum([0] + durations)], from a running total. *)
Fixpoint cumsum (acc : Z) (durations : list Z) : list Z :=
  match durations with
  | [] => [acc]
  | d :: rest => acc :: cumsum (acc + d)%Z rest
  end.

(** [[(c.audio, t) for c, t in zip(clips, tt) if c.audio is not None]]. *)
Fixpoint audio_t (video_clips : list VideoClip) (tt : list Z)
  : list (AudioFileClip * Z) :=
  match video_clips, tt with
  | c :: cs, t :: ts =>
      match clip_audio c with
      | Some a => (a, t) :: audio_t cs ts
      | None => audio_t cs ts
      end
  | _, _ => []
  end.

(** [concatenate_videoclips(clips)] with the default method (chain), no
    transition and no padding, as moviepy 1.x computes it: the parts play
    one after the other with hard cuts, each sound track starting with
    its part; on an empty list the maximum over the sizes raises. *)
Definition concatenate_videoclips (video_clips : list VideoClip)
  : result CompositeVideoClip :=
  match video_clips with
  | [] => inl (ValueError "max() arg is an empty sequence")
  | _ =>
      let tt := cumsum 0%Z (clip_duration <$> video_clips) in
      inr {| clips := video_clips;
             start_times := take (length video_clips) tt;
             duration := default 0%Z (last tt);
             audio := match audio_t video_clips tt with
                      | [] => None
                      | tracks => Some tracks
                      end |}
  end.

(** ** Files *)

(** A file of the working directory.  The bytes of an encoded video or
    sound are kept abstract: the file [write_videofile] produces is the
    clip it encodes with the frame rate and codec asked for, and the
    sound file it makes on the way is the sound it encodes with its
    codec. *)
Inductive file :=
| Raw (content : list Byte.byte)
| Encoded (video : CompositeVideoClip) (fps : nat) (codec : string)
| EncodedAudio (sound : CompositeAudioClip) (codec : string).

(** ** Requests to the outside *)

Record ChatRequest := {
  chat_model : string;
  response_format : string;
  messages : list (string * string);
}.

Record ImageRequest := {
  image_model : string;
  image_prompt : value;
  size : string;
  quality : string;
  n : nat;
}.

Record Response := {
  status_code : nat;
  text : string;
}.

(** A streamed download: the status line, the chunks received, and the
    exception that interrupts the stream, if one does. *)
Record StreamedResponse := {
  stream_status : nat;
  chunks : list (list Byte.byte);
  interrupted : option exn;
}.

(** How an encoding run ends; a failed run may leave a partial file. *)
Inductive encode_outcome :=
| EncodeDone
| EncodeFailed (e : exn) (partial_file : option (list Byte.byte)).

Inductive Call :=
| CallChat (req : ChatRequest)
| CallImage (req : ImageRequest)
| CallPost (url : string) (headers : list (string * string)) (data : value)
| CallGet (url : value).

(** What the program does not define.  The hosted services answer a
    request issued after [t] earlier requests, so the same request may
    get different answers at different times. *)
Record Services := {
  chat_completions_create : nat → ChatRequest → result (list (option string));
  images_generate : nat → ImageRequest → result (list value);
  requests_post :
    nat → string → list (string * string) → value → result Response;
  requests_get : nat → value → result StreamedResponse;
  json_loads : string → result value;
  imread : file → result (list Byte.byte);
  ffmpeg_parse_duration : file → result Q;
  ffmpeg_audiowrite : CompositeAudioClip → string → encode_outcome;
  ffmpeg_write : CompositeVideoClip → nat → string → encode_outcome;
}.

Record Settings := {
  open_ai_api_key : string;
  murf_ai_api_key : string;
}.

(** ** The state the service runs in *)

(** The working directory, the requests sent so far, and the paths the
    service has named for writing so far, in [open(..., "wb")] and in
    [write_videofile] (both logs oldest first).  A file that a library
    makes under a name of its own shows in [fs] only. *)
Record World := mkWorld {
  fs : gmap string file;
  trace : list Call;
  opened : list string;
}.

(** A computation may change the world and raise; what it changed before
    raising stays changed. *)
Definition M (A : Type) : Type := World → World * result A.

#[export] Instance M_ret : MRet M := λ A a w, (w, inr a).

#[export] Instance M_bind : MBind M := λ A B f m w,
  match m w with
  | (w1, inr a) => f a w1
  | (w1, inl e) => (w1, inl e)
  end.

Definition raise {A} (e : exn) : M A := λ w, (w, inl e).

Definition lift {A} (r : result A) : M A := λ w, (w, r).

(** Issue a request: it is logged, and answered by the service. *)
Definition request {A} (c : Call) (answer : nat → result A) : M A := λ w,
  (mkWorld (fs w) (trace w ++ [c]) (opened w), answer (length (trace w))).

Definition read_file (path : string) : M file := λ w,
  match fs w !! path with
  | Some f => (w, inr f)
  | None => (w, inl (OSError "No such file or directory"))
  end.

(** [open(path, "wb")]: the file is created, or emptied if it exists. *)
Definition open_wb (path : string) : M unit := λ w,
  (mkWorld (<[path := Raw []]> (fs w)) (trace w) (opened w ++ [path]), inr tt).

(** A write through the handle of a file opened at [path]: the file now
    holds [f]. *)
Definition file_write (path : string) (f : file) : M unit := λ w,
  (mkWorld (<[path := f]> (fs w)) (trace w) (opened w), inr tt).

(** [if os.path.exists(path): os.remove(path)]. *)
Definition remove_if_exists (path : string) : M unit := λ w,
  (mkWorld (delete path (fs w)) (trace w) (opened w), inr tt).

(** ** Path names (os.path) *)

(** The characters of [l] before its first [c], and those after it when
    [c] occurs. *)
Fixpoint break_at (c : Ascii.ascii) (l : list Ascii.ascii)
  : list Ascii.ascii * option (list Ascii.ascii) :=
  match l with
  | [] => ([], None)
  | x :: rest =>
      if decide (x = c) then ([], Some rest)
      else let (before, after) := break_at c rest in (x :: before, after)
  end.

Definition slash : Ascii.ascii := Ascii.ascii_of_nat 47.
Definition dot : Ascii.ascii := Ascii.ascii_of_nat 46.

(** [os.path.basename(path)]: what follows the last slash. *)
Definition basename (path : string) : string :=
  Strings.String.string_of_list_ascii
    (rev (break_at slash (rev (Strings.String.list_ascii_of_string path))).1).

(** [os.path.splitext(name)] of a name without slash: the extension
    starts at the last dot, unless only dots come before it. *)
Definition splitext (name : string) : string * string :=
  match break_at dot (rev (Strings.String.list_ascii_of_string name)) with
  | (ext_rev, Some root_rev) =>
      if forallb (λ c, bool_decide (c = dot)) root_rev then (name, EmptyString)
      else (Strings.String.string_of_list_ascii (rev root_rev),
            Strings.String.string_of_list_ascii (dot :: rev ext_rev))
  | (_, None) => (name, EmptyString)
  end.

(** [s[1:].lower()] on an extension. *)
Definition lower (c : Ascii.ascii) : Ascii.ascii :=
  let k := Ascii.nat_of_ascii c in
  if decide (65 ≤ k ≤ 90)%nat then Ascii.ascii_of_nat (k + 32) else c.

Definition extension_of (ext : string) : string :=
  Strings.String.string_of_list_ascii
    (lower <$> drop 1 (Strings.String.list_ascii_of_string ext)).

Section Service.

Context (svc : Services) (settings : Settings).

(** ** app/openai.py *)

Definition system_prompt : string :=
  "You are an automated system that helps generate 8-second videos. The user will provide a prompt, based on which, you will return a JSON array of objects named script. Each sentence of the script will be an object in the array. The object will have the following attributes. text - the sentence of the script. imagePrompt - a prompt that can be sent to DALL-E to generate the perfect, photorealistic image for the given sentence that also aligns with the overall context of the video; the image should have little or no text in it. voiceId - a voice id that will be used by a TTS service; Only one voice should be used per video; For documentary videos, use en-UK-gabriel; for promo, ad-like videos, or any video with happy vibes, use en-UK-reggie for British accent or en-US-caleb for American accent; for informational videos like tutorials or lessons, use en-UK-hazel or en-US-miles; for other generic or general videos, use en-US-miles.".

Definition script_request (prompt : string) : ChatRequest :=
  {| chat_model := "gpt-4-1106-preview";
     response_format := "json_object";
     messages := [("system", system_prompt); ("user", prompt)] |}.

Definition get_script (prompt : string) : M value :=
  choices ← request (CallChat (script_request prompt))
              (λ t, chat_completions_create svc t (script_request prompt));
  content ← lift (py_first choices);
  match content with
  | Some json_str => lift (json_loads svc json_str)
  | None =>
      raise (TypeError "the JSON object must be str, bytes or bytearray, not NoneType")
  end.

Definition image_request (prompt : value) : ImageRequest :=
  {| image_model := "dall-e-3";
     image_prompt := prompt;
     size := "1024x1024";
     quality := "standard";
     n := 1 |}.

Definition get_image (prompt : value) : M value :=
  data ← request (CallImage (image_request prompt))
           (λ t, images_generate svc t (image_request prompt));
  lift (py_first data).

(** ** app/murf.py *)

Definition murf_url : string :=
  "https://api.murf.ai/v1/speech/generate-with-key".

Definition murf_payload (text voice_id : value) : value :=
  VDict [("voiceId", voice_id); ("text", text)].

Definition murf_headers : list (string * string) :=
  [("Content-Type", "application/json");
   ("Accept", "application/json");
   ("api-key", murf_ai_api_key settings)].

Definition get_voiceover_url (text voice_id : value) : M value :=
  response ← request (CallPost murf_url murf_headers (murf_payload text voice_id))
               (λ t, requests_post svc t murf_url murf_headers
                       (murf_payload text voice_id));
  body ← lift (json_loads svc (Video.text response));
  lift (py_getitem body "audioFile").

(** ** app/moviepy.py *)

Definition raise_for_status (status : nat) : M unit :=
  if decide (400 ≤ status < 600)%nat then raise (HTTPError status)
  else mret tt.

(** The loop over [r.iter_content]: every chunk is appended to the file
    opened at [path]; [written] is what the file holds so far. *)
Fixpoint write_chunks (path : string) (written : list Byte.byte)
    (cs : list (list Byte.byte)) : M unit :=
  match cs with
  | [] => mret tt
  | chunk :: rest =>
      _ ← file_write path (Raw (written ++ chunk));
      write_chunks path (written ++ chunk) rest
  end.

Definition download_file (url : value) (local_filename : string) : M string :=
  r ← request (CallGet url) (λ t, requests_get svc t url);
  _ ← raise_for_status (stream_status r);
  _ ← open_wb local_filename;
  _ ← write_chunks local_filename [] (chunks r);
  match interrupted r with
  | Some e => raise e
  | None => mret local_filename
  end.

(** [AudioFileClip(path)]: the file is opened and its length read. *)
Definition AudioFileClip_open (path : string) : M AudioFileClip :=
  f ← read_file path;
  d ← lift (ffmpeg_parse_duration svc f);
  mret {| audio_filename := path; audio_duration := d |}.

(** [ImageClip(path, duration=d)]: the picture is decoded at once. *)
Definition ImageClip_open (path : string) (d : Z) : M VideoClip :=
  f ← read_file path;
  img ← lift (imread svc f);
  mret {| clip_img := img; clip_duration := d; clip_audio := None |}.

(** The sound codec [write_videofile] picks when none is given, and the
    extension of the files of a sound codec ([find_extension]). *)
Definition default_audio_codec (ext : string) : string :=
  if decide (ext = "ogv" ∨ ext = "webm") then "libvorbis" else "libmp3lame".

Definition find_extension (codec : string) : string :=
  if decide (codec = "libvorbis") then "ogg" else "mp3".

(** The name of the sound file [write_videofile] makes for the video at
    [filename]: the name of the video without its extension, the prefix
    of moviepy's temporary files, and the extension of the sound
    codec. *)
Definition temp_audiofile (filename : string) : string :=
  let (name, ext) := splitext (basename filename) in
  let audio_codec := default_audio_codec (extension_of ext) in
  name +:+ "TEMP_MPY_" +:+ "wvf_snd." +:+ find_extension audio_codec.

(** [sound.write_audiofile(audiofile, codec=audio_codec)]: ffmpeg writes
    the file; a run that fails may leave a partial file. *)
Definition write_audiofile (sound : CompositeAudioClip) (audiofile : string)
    (audio_codec : string) : M unit :=
  match ffmpeg_audiowrite svc sound audio_codec with
  | EncodeDone => file_write audiofile (EncodedAudio sound audio_codec)
  | EncodeFailed e (Some partial) =>
      _ ← file_write audiofile (Raw partial); raise e
  | EncodeFailed e None => raise e
  end.

(** [ffmpeg_write_video(clip, filename, fps, codec, audiofile=...)]:
    ffmpeg writes the video, with its sound when it has one. *)
Definition ffmpeg_write_video (video : CompositeVideoClip) (filename : string)
    (fps : nat) (codec : string) : M unit :=
  match ffmpeg_write svc video fps codec with
  | EncodeDone =>
      _ ← open_wb filename; file_write filename (Encoded video fps codec)
  | EncodeFailed e (Some partial) =>
      _ ← open_wb filename; _ ← file_write filename (Raw partial); raise e
  | EncodeFailed e None => raise e
  end.

(** [video.write_videofile(filename, fps=fps, codec=codec)] of moviepy
    1.x, with its defaults: when the clip has sound, the sound is first
    written to a file of its own next to the working directory's files,
    then the video is encoded with it, and last the sound file is
    removed.  Nothing is removed when one of the two encodings
    raises. *)
Definition write_videofile (video : CompositeVideoClip) (filename : string)
    (fps : nat) (codec : string) : M unit :=
  match audio video with
  | Some sound =>
      let (_, ext) := splitext (basename filename) in
      let audio_codec := default_audio_codec (extension_of ext) in
      let audiofile := temp_audiofile filename in
      _ ← write_audiofile sound audiofile audio_codec;
      _ ← ffmpeg_write_video video filename fps codec;
      remove_if_exists audiofile
  | None => ffmpeg_write_video video filename fps codec
  end.

Record MediaPair := {
  imageUrl : value;
  audioUrl : value;
}.

Record FileResponse := {
  path : string;
  media_type : string;
}.

Definition image_name (counter : nat) : string :=
  "image_" +:+ pretty counter +:+ ".png".

Definition audio_name (counter : nat) : string :=
  "audio_" +:+ pretty counter +:+ ".wav".

Definition output_path : string := "output_video.mp4".

(** The [for data in data_list] loop of [get_final_video], with its two
    loop variables [counter] and [video_clips]. *)
Fixpoint get_final_video_loop (data_list : list MediaPair) (counter : nat)
    (video_clips : list VideoClip) : M (list VideoClip) :=
  match data_list with
  | [] => mret video_clips
  | data :: rest =>
      let audio_url := audioUrl data in
      let image_url := imageUrl data in
      image_path ← download_file image_url (image_name counter);
      audio_path ← download_file audio_url (audio_name counter);
      audio_clip ← AudioFileClip_open audio_path;
      video_clip ← ImageClip_open image_path
                     (py_int (audio_duration audio_clip) + 1)%Z;
      let video_clip := set_audio video_clip audio_clip in
      get_final_video_loop rest (S counter) (video_clips ++ [video_clip])
  end.

(** [final_video.close()] releases the readers of the clip; it changes
    no file and sends no request. *)
Definition get_final_video (data_list : list MediaPair) : M FileResponse :=
  video_clips ← get_final_video_loop data_list 0 [];
  final_video ← lift (concatenate_videoclips video_clips);
  _ ← write_videofile final_video output_path 24 "libx264";
  mret {| path := output_path; media_type := "video/mp4" |}.

(** ** app/main.py *)

Record GenerateVideoPayload := {
  prompt : string;
}.

(** The [for item in script_arr] loop of [get_ai_video]; [data_list] is
    the list it appends to. *)
Fixpoint get_ai_video_loop (items : list value) (data_list : list MediaPair)
  : M (list MediaPair) :=
  match items with
  | [] => mret data_list
  | item :: rest =>
      image_prompt ← lift (py_getitem item "imagePrompt");
      image_url ← get_image image_prompt;
      text ← lift (py_getitem item "text");
      voice_id ← lift (py_getitem item "voiceId");
      audio_url ← get_voiceover_url text voice_id;
      get_ai_video_loop rest
        (data_list ++ [{| imageUrl := image_url; audioUrl := audio_url |}])
  end.

Definition get_ai_video (payload : GenerateVideoPayload) : M FileResponse :=
  script ← get_script (prompt payload);
  script_arr ← lift (py_getitem script "script");
  items ← lift (py_iter script_arr);
  data_list ← get_ai_video_loop items [];
  get_final_video data_list.

End Service.

(** ** What the claims speak of *)

Section Answers.

Context (svc : Services) (settings : Settings).

(** The answer [get_image] gets at time [t]. *)
Definition image_answer (t : nat) (prompt : value) : result value :=
  match images_generate svc t (image_request prompt) with
  | inr data => py_first data
  | inl e => inl e
  end.

(** The answer [get_voiceover_url] gets at time [t]. *)
Definition voice_answer (t : nat) (text voice_id : value) : result value :=
  match requests_post svc t murf_url (murf_headers settings)
          (murf_payload text voice_id) with
  | inr response =>
      match json_loads svc (Video.text response) with
      | inr body => py_getitem body "audioFile"
      | inl e => inl e
      end
  | inl e => inl e
  end.

(** [pair] is the media of the directive [item], asked for at times [t]
    (the picture) and [t + 1] (the narration). *)
Definition made_from (t : nat) (item : value) (pair : MediaPair) : Prop :=
  ∃ image_prompt text voice_id,
    py_getitem item "imagePrompt" = inr image_prompt ∧
    py_getitem item "text" = inr text ∧
    py_getitem item "voiceId" = inr voice_id ∧
    image_answer t image_prompt = inr (imageUrl pair) ∧
    voice_answer (S t) text voice_id = inr (audioUrl pair).

(** One turn of the loop of [get_ai_video]. *)
Definition directive_media (item : value) : M MediaPair :=
  image_prompt ← lift (py_getitem item "imagePrompt");
  image_url ← get_image svc image_prompt;
  text ← lift (py_getitem item "text");
  voice_id ← lift (py_getitem item "voiceId");
  audio_url ← get_voiceover_url svc settings text voice_id;
  mret {| imageUrl := image_url; audioUrl := audio_url |}.

(** One turn of the loop of [get_final_video]. *)
Definition pair_clip (counter : nat) (data : MediaPair) : M VideoClip :=
  let audio_url := audioUrl data in
  let image_url := imageUrl data in
  image_path ← download_file svc image_url (image_name counter);
  audio_path ← download_file svc audio_url (audio_name counter);
  audio_clip ← AudioFileClip_open svc audio_path;
  video_clip ← ImageClip_open svc image_path
                 (py_int (audio_duration audio_clip) + 1)%Z;
  mret (set_audio video_clip audio_clip).

(** [clip] is the segment of the pair [data], item [counter] of the list,
    downloaded at times [t] (the picture) and [t + 1] (the narration):
    it shows the picture downloaded from the pair's image URL and carries
    the narration downloaded from the pair's audio URL. *)
Definition segment_of (t counter : nat) (data : MediaPair) (clip : VideoClip)
  : Prop :=
  ∃ picture narration a,
    requests_get svc t (imageUrl data) = inr picture ∧
    requests_get svc (S t) (audioUrl data) = inr narration ∧
    imread svc (Raw (concat (chunks picture))) = inr (clip_img clip) ∧
    ffmpeg_parse_duration svc (Raw (concat (chunks narration)))
      = inr (audio_duration a) ∧
    audio_filename a = audio_name counter ∧
    clip_audio clip = Some a ∧
    clip_duration clip = (py_int (audio_duration a) + 1)%Z.

End Answers.

(** The voiceIds sent to the speech service, in order. *)
Definition posted_voice_ids (calls : list Call) : list value :=
  calls ≫= λ c,
    match c with
    | CallPost _ _ (VDict bindings) => option_list (dict_get bindings "voiceId")
    | _ => []
    end.

(** The requests a well-formed directive gives rise to. *)
Definition item_calls (settings : Settings) (item : value) : list Call :=
  match py_getitem item "imagePrompt", py_getitem item "text",
        py_getitem item "voiceId" with
  | inr image_prompt, inr text, inr voice_id =>
      [CallImage (image_request image_prompt);
       CallPost murf_url (murf_headers settings) (murf_payload text voice_id)]
  | _, _, _ => []
  end.

Definition voice_id_of (item : value) : list value :=
  match py_getitem item "voiceId" with
  | inr v => [v]
  | inl _ => []
  end.

(** The scratch files of the items [counter], ..., [counter + k - 1], in
    the order they are opened. *)
Fixpoint scratch_names (counter k : nat) : list string :=
  match k with
  | O => []
  | S k' => image_name counter :: audio_name counter :: scratch_names (S counter) k'
  end.

(** The length asked of a segment by the claim: the whole seconds of its
    narration and one more. *)
Definition padded_floor (clip : VideoClip) : Z :=
  match clip_audio clip with
  | Some a => (Qfloor (audio_duration a) + 1)%Z
  | None => 0%Z
  end.

Definition Zsum (l : list Z) : Z := foldr Z.add 0%Z l.

(** A computation is quiet when it leaves the files and the log of opened
    paths alone, whatever its outcome. *)
Definition quiet {A} (m : M A) : Prop :=
  ∀ w, fs (m w).1 = fs w ∧ opened (m w).1 = opened w.

(** The scratch files: the pictures and narrations of the items. *)
Definition scratch_path (path : string) : Prop :=
  ∃ i, path = image_name i ∨ path = audio_name i.

(** A computation keeps the scratch files when, whatever its outcome,
    every scratch file that was there before it, and every scratch file
    it has named for writing, is there after it. *)
Definition keeps_scratch {A} (m : M A) : Prop :=
  ∀ w, ∃ paths,
    opened (m w).1 = (opened w ++ paths)%list ∧
    ∀ name, scratch_path name →
      name ∈ dom (fs w) ∨ name ∈ paths → name ∈ dom (fs (m w).1).

(** ** Test doubles *)

Definition dq : string := String (Ascii.ascii_of_nat 34) EmptyString.

Definition render_member (kv : string * string) : string :=
  dq +:+ kv.1 +:+ dq +:+ ": " +:+ dq +:+ kv.2 +:+ dq.

Fixpoint render_list (sep : string) (parts : list string) : string :=
  match parts with
  | [] => EmptyString
  | [x] => x
  | x :: rest => x +:+ sep +:+ render_list sep rest
  end.

(** The JSON text of an object with string members. *)
Definition render_object (members : list (string * string)) : string :=
  "{" +:+ render_list ", " (render_member <$> members) +:+ "}".

Definition object_value (members : list (string * string)) : value :=
  VDict ((λ kv, (kv.1, VStr kv.2)) <$> members).

(** The JSON text of a reply holding a script, and the value it denotes. *)
Definition render_script (directives : list (list (string * string))) : string :=
  "{" +:+ dq +:+ "script" +:+ dq +:+ ": ["
      +:+ render_list ", " (render_object <$> directives) +:+ "]}".

Definition script_value (directives : list (list (string * string))) : value :=
  VDict [("script", VList (object_value <$> directives))].

Definition directive (text image_prompt voice_id : string)
  : list (string * string) :=
  [("text", text); ("imagePrompt", image_prompt); ("voiceId", voice_id)].

Definition penguins : list (list (string * string)) :=
  [directive "Penguins march." "penguins on ice" "en-UK-gabriel";
   directive "They dive." "a penguin diving" "en-UK-gabriel"].

Definition two_voices : list (list (string * string)) :=
  [directive "Run faster." "running shoes" "en-UK-reggie";
   directive "Buy now." "a shoe box" "en-US-caleb"].

Definition refused_first : list (list (string * string)) :=
  [directive "One." "forbidden" "en-US-miles";
   directive "Two." "a tree" "en-US-miles"].

Definition refused_second : list (list (string * string)) :=
  [directive "One." "a tree" "en-US-miles";
   directive "Two." "forbidden" "en-US-miles"].

Definition no_narration : list (list (string * string)) :=
  [[("imagePrompt", "a cat")]].

Definition speech_body : list (string * string) :=
  [("audioFile", "https://murf.example/a.wav")].

Definition replies : list (string * list (list (string * string))) :=
  [("Documentary on penguins", penguins);
   ("Ad for shoes", two_voices);
   ("Refused first", refused_first);
   ("Refused second", refused_second);
   ("No narration", no_narration)].

Fixpoint table_get {A} (table : list (string * A)) (key : string) : option A :=
  match table with
  | [] => None
  | (k, a) :: rest => if decide (k = key) then Some a else table_get rest key
  end.

(** A parser that knows the texts of [replies] and of [speech_body]
    (and the empty object), and rejects every other text. *)
Definition studio_json_loads (s : string) : result value :=
  match table_get ((λ r, (render_script r.2, script_value r.2)) <$> replies) s with
  | Some v => inr v
  | None =>
      if decide (s = render_object speech_body) then inr (object_value speech_body)
      else if decide (s = "{}") then inr (VDict [])
      else inl JSONDecodeError
  end.

(** Services that answer the prompts of [replies]; the picture service
    refuses the prompt [forbidden]; every download delivers three bytes
    in two chunks; a narration lasts half a second per byte. *)
Definition studio : Services :=
  {| chat_completions_create := λ _ req,
       match messages req with
       | [_; (_, p)] =>
           match table_get replies p with
           | Some r => inr [Some (render_script r)]
           | None => inr [Some "{}"]
           end
       | _ => inl (ServiceError "openai" "bad request")
       end;
     images_generate := λ t req,
       match image_prompt req with
       | VStr "forbidden" =>
           inl (ServiceError "openai" "content policy violation")
       | _ => inr [VStr ("https://img.example/" +:+ pretty t +:+ ".png")]
       end;
     requests_post := λ _ _ _ _,
       inr {| status_code := 200; text := render_object speech_body |};
     requests_get := λ _ _,
       inr {| stream_status := 200;
              chunks := [[Byte.x01; Byte.x02]; [Byte.x03]];
              interrupted := None |};
     json_loads := studio_json_loads;
     imread := λ f,
       match f with
       | Raw c => inr c
       | _ => inl (OSError "cannot identify image file")
       end;
     ffmpeg_parse_duration := λ f,
       match f with
       | Raw c => inr (Z.of_nat (length c) # 2)
       | _ => inl (OSError "no audio stream")
       end;
     ffmpeg_audiowrite := λ _ _, EncodeDone;
     ffmpeg_write := λ _ _ _, EncodeDone |}.

Definition keys : Settings :=
  {| open_ai_api_key := "sk-test"; murf_ai_api_key := "murf-test" |}.

Definition empty_world : World := mkWorld ∅ [] [].

(** ** More vocabulary, for the properties beyond the claims *)

(** The downloads a media pair gives rise to. *)
Definition pair_calls (data : MediaPair) : list Call :=
  [CallGet (imageUrl data); CallGet (audioUrl data)].

(** A path a call may change: a scratch file, the video, or the sound
    file [write_videofile] makes for the video. *)
Definition service_path (path : string) : Prop :=
  path = output_path ∨ path = temp_audiofile output_path ∨ scratch_path path.

(** ** More test doubles *)

Definition with_requests_get (svc : Services)
    (get : nat → value → result StreamedResponse) : Services :=
  {| chat_completions_create := chat_completions_create svc;
     images_generate := images_generate svc;
     requests_post := requests_post svc;
     requests_get := get;
     json_loads := json_loads svc;
     imread := imread svc;
     ffmpeg_parse_duration := ffmpeg_parse_duration svc;
     ffmpeg_audiowrite := ffmpeg_audiowrite svc;
     ffmpeg_write := ffmpeg_write svc |}.

Definition with_chat (svc : Services)
    (reply : string) (parsed : value) : Services :=
  {| chat_completions_create := λ _ _, inr [Some reply];
     images_generate := images_generate svc;
     requests_post := requests_post svc;
     requests_get := requests_get svc;
     json_loads := λ s, if decide (s = reply) then inr parsed else json_loads svc s;
     imread := imread svc;
     ffmpeg_parse_duration := ffmpeg_parse_duration svc;
     ffmpeg_audiowrite := ffmpeg_audiowrite svc;
     ffmpeg_write := ffmpeg_write svc |}.

(** Every download is answered with 404. *)
Definition not_found : Services :=
  with_requests_get studio (λ _ _,
    inr {| stream_status := 404; chunks := []; interrupted := None |}).

(** Every download breaks after two bytes. *)
Definition broken_stream : Services :=
  with_requests_get studio (λ _ _,
    inr {| stream_status := 200;
           chunks := [[Byte.x01; Byte.x02]];
           interrupted := Some (ServiceError "requests" "connection broken") |}).

(** The video encoder breaks down after it has written a byte. *)
Definition broken_encoder : Services :=
  {| chat_completions_create := chat_completions_create studio;
     images_generate := images_generate studio;
     requests_post := requests_post studio;
     requests_get := requests_get studio;
     json_loads := json_loads studio;
     imread := imread studio;
     ffmpeg_parse_duration := ffmpeg_parse_duration studio;
     ffmpeg_audiowrite := ffmpeg_audiowrite studio;
     ffmpeg_write := λ _ _ _,
       EncodeFailed (OSError "Broken pipe") (Some [Byte.x00]) |}.

(** The model answers with an object where the list of directives
    should be. *)
Definition object_script : Services :=
  with_chat studio
    ("{" +:+ dq +:+ "script" +:+ dq +:+ ": "
         +:+ render_object [("text", "Hello.")] +:+ "}")
    (VDict [("script", object_value [("text", "Hello.")])]).

Definition a_pair : MediaPair :=
  {| imageUrl := VStr "https://img.example/1.png";
     audioUrl := VStr "https://murf.example/a.wav" |}.

Definition old_file : World :=
  mkWorld {[ "image_0.png" := Raw [Byte.x09] ]} [] [].

(** A computation changes only files whose path satisfies [P], whatever
    its outcome. *)
Definition touches_only {A} (P : string → Prop) (m : M A) : Prop :=
  ∀ w name, ¬ P name → fs (m w).1 !! name = fs w !! name.

Definition notes : World :=
  mkWorld {[ "notes.txt" := Raw [Byte.x09] ]} [] [].

End Video.

(** * Part II: the talking chatbot (TypeScript, React) *)

Module Chat.

Local Open Scope list_scope.

(** ** JavaScript strings *)

(** A string is a sequence of UTF-16 code units. *)
Definition js_string : Type := list N.

(** The string of an ASCII literal. *)
Definition js (s : string) : js_string :=
  Ascii.N_of_ascii <$> Strings.String.list_ascii_of_string s.

(** ECMAScript [WhiteSpace]: TAB, VT, FF, SP, NBSP, ZWNBSP and the
    space separators (category Zs). *)
Definition is_white_space (c : N) : bool :=
  bool_decide (c ∈ [0x9; 0xB; 0xC; 0x20; 0xA0; 0xFEFF; 0x1680; 0x2000; 0x2001;
                    0x2002; 0x2003; 0x2004; 0x2005; 0x2006; 0x2007; 0x2008;
                    0x2009; 0x200A; 0x202F; 0x205F; 0x3000]%N).

(** ECMAScript [LineTerminator]: LF, CR, LS, PS. *)
Definition is_line_terminator (c : N) : bool :=
  bool_decide (c ∈ [0xA; 0xD; 0x2028; 0x2029]%N).

Definition is_trimmed (c : N) : bool := is_white_space c || is_line_terminator c.

Fixpoint trim_start (s : js_string) : js_string :=
  match s with
  | [] => []
  | c :: rest => if is_trimmed c then trim_start rest else s
  end.

Definition trim_end (s : js_string) : js_string :=
  reverse (trim_start (reverse s)).

(** [String.prototype.trim]. *)
Definition trim (s : js_string) : js_string := trim_end (trim_start s).

(** ** api/OpenAiAPI and api/MurfAPI *)

Inductive role := system | user | assistant.

(** [None] is [undefined]: the type says string, the casts of
    [handlePromptSubmit] let [undefined] through. *)
Record ChatGPTMessage := {
  msg_role : role;
  content : option js_string;
}.

Record CreateChatCompletionRequest := {
  model : string;
  messages : list ChatGPTMessage;
  max_tokens : nat;
}.

(** A choice of a completion; its [message] is optional. *)
Record Choice := {
  message : option ChatGPTMessage;
}.

(** [completion.data] *)
Record ChatCompletion := {
  choices : list Choice;
}.

Record GenerateSpeechInput := {
  voiceId : string;
  text : option js_string;
  format : string;
}.

(** [response.data] of the speech endpoint. *)
Record SpeechResponse := {
  audioFile : option js_string;
}.

Inductive error :=
| TypeError (msg : string)
| Rejected (reason : string).

Record Env := {
  VITE_OPENAI_API_KEY : string;
  VITE_MURF_API_KEY : string;
}.

(** ** The component state *)

Inductive STATUS_TYPES := IDLE | LOADING.

#[export] Instance STATUS_TYPES_eq_dec : EqDecision STATUS_TYPES.
Proof. solve_decision. Defined.

Record GPTQuery := {
  question : js_string;
  gptResponse : option js_string;
  gptResponseAudioUrl : option js_string;
}.

Record State := {
  prompt : js_string;
  status : STATUS_TYPES;
  gptQueries : list GPTQuery;
  currentAudioId : option nat;
}.

Definition setPrompt (v : js_string) (st : State) : State :=
  {| prompt := v; status := status st; gptQueries := gptQueries st;
     currentAudioId := currentAudioId st |}.

Definition setStatus (v : STATUS_TYPES) (st : State) : State :=
  {| prompt := prompt st; status := v; gptQueries := gptQueries st;
     currentAudioId := currentAudioId st |}.

Definition setGptQueries (v : list GPTQuery) (st : State) : State :=
  {| prompt := prompt st; status := status st; gptQueries := v;
     currentAudioId := currentAudioId st |}.

Definition setCurrentAudioId (v : option nat) (st : State) : State :=
  {| prompt := prompt st; status := status st; gptQueries := gptQueries st;
     currentAudioId := v |}.

Definition initial_state : State :=
  {| prompt := []; status := IDLE; gptQueries := []; currentAudioId := None |}.

#[export] Instance GPTQuery_eq_dec : EqDecision GPTQuery.
Proof. solve_decision. Defined.

#[export] Instance State_eq_dec : EqDecision State.
Proof. solve_decision. Defined.

(** ** Asynchronous handlers *)

(** What a handler does, step by step: it ends, throws, updates the
    component state, or awaits a request; the continuation of an await
    runs when the request is answered, and a rejected request rejects the
    handler. *)
Inductive Async :=
| Return
| Throw (e : error)
| SetState (update : State → State) (k : Async)
| CreateChatCompletion (req : CreateChatCompletionRequest)
    (k : ChatCompletion → Async)
| AxiosPost (url : string) (data : GenerateSpeechInput)
    (headers : list (string * string)) (k : SpeechResponse → Async).

Definition generateChatGPTResponse (messages : list ChatGPTMessage)
    (k : ChatCompletion → Async) : Async :=
  CreateChatCompletion
    {| model := "gpt-3.5-turbo"; messages := messages; max_tokens := 1000 |} k.

Definition baseURL : string := "https://api.murf.ai/v1".

Section Component.

Context (env : Env).

Definition generateSpeechWithKey (data : GenerateSpeechInput)
    (k : SpeechResponse → Async) : Async :=
  AxiosPost (baseURL +:+ "/speech/generate-with-key") data
    [("api-key", VITE_MURF_API_KEY env); ("Content-Type", "application/json")]
    k.

(** The [forEach] of [handlePromptSubmit]: two pushes per query. *)
Definition push_queries (gptQueries : list GPTQuery) : list ChatGPTMessage :=
  foldl (λ messagesList query,
           messagesList ++ [ {| msg_role := user; content := Some (question query) |};
                             {| msg_role := assistant; content := gptResponse query |} ])
        [] gptQueries.

(** [!prompt || prompt.trim() === ""] *)
Definition is_blank (prompt : js_string) : bool :=
  bool_decide (prompt = []) || bool_decide (trim prompt = []).

(** [gptRes.data.choices[0].message?.content] once [choices[0]] exists. *)
Definition reply_content (choice : Choice) : option js_string :=
  message choice ≫= content.

(** [handlePromptSubmit] as created by the render of [render]: [prompt]
    and [gptQueries] are the values of that render. *)
Definition handlePromptSubmit (render : State) : Async :=
  let prompt := prompt render in
  let gptQueries := gptQueries render in
  if is_blank prompt then Return else
  SetState (setStatus LOADING) (
  let messagesList :=
    push_queries gptQueries
      ++ [ {| msg_role := user; content := Some prompt |} ] in
  generateChatGPTResponse messagesList (λ gptRes,
  match choices gptRes with
  | [] => Throw (TypeError "Cannot read properties of undefined (reading 'message')")
  | choice :: _ =>
      let murfPayload :=
        {| voiceId := "en-US-marcus";
           format := "MP3";
           text := reply_content choice |} in
      generateSpeechWithKey murfPayload (λ murfAudio,
      SetState (setGptQueries
                  (gptQueries ++ [ {| question := prompt;
                                      gptResponse := reply_content choice;
                                      gptResponseAudioUrl := audioFile murfAudio |} ])) (
      SetState (setPrompt []) (
      SetState (setStatus IDLE) Return)))
  end)).

Definition handlePromptChange (value : js_string) : Async :=
  SetState (setPrompt value) Return.

Definition handleAudioPlay (render : State) (audioIdToPlay : nat) : Async :=
  if decide (currentAudioId render = Some audioIdToPlay)
  then SetState (setCurrentAudioId None) Return
  else SetState (setCurrentAudioId (Some audioIdToPlay)) Return.

Definition handleOnAudioPlayEnd : Async :=
  SetState (setCurrentAudioId None) Return.

End Component.

(** ** Running a handler to completion *)

Inductive Call :=
| CallOpenAI (req : CreateChatCompletionRequest)
| CallMurf (url : string) (data : GenerateSpeechInput)
    (headers : list (string * string)).

(** The hosted services; a request issued after [t] earlier ones is
    answered or rejected. *)
Record Services := {
  createChatCompletion :
    nat → CreateChatCompletionRequest → error + ChatCompletion;
  axios_post :
    nat → string → GenerateSpeechInput → list (string * string)
    → error + SpeechResponse;
}.

(** The state React holds for the component, and the requests the
    component has sent, oldest first. *)
Record Session := {
  ui : State;
  calls : list Call;
}.

(** One handler, from its call to its end, with no other event in
    between: its updates apply in order to the state React holds, which
    is what the next render shows. *)
Fixpoint run (svc : Services) (a : Async) (s : Session)
  : Session * (error + unit) :=
  match a with
  | Return => (s, inr tt)
  | Throw e => (s, inl e)
  | SetState update k =>
      run svc k {| ui := update (ui s); calls := calls s |}
  | CreateChatCompletion req k =>
      let s1 := {| ui := ui s; calls := calls s ++ [CallOpenAI req] |} in
      match createChatCompletion svc (length (calls s)) req with
      | inr r => run svc (k r) s1
      | inl e => (s1, inl e)
      end
  | AxiosPost url data headers k =>
      let s1 := {| ui := ui s; calls := calls s ++ [CallMurf url data headers] |} in
      match axios_post svc (length (calls s)) url data headers with
      | inr r => run svc (k r) s1
      | inl e => (s1, inl e)
      end
  end.

(** ** The component under events *)

(** A handler stopped at an await. *)
Inductive Pending :=
| PendingCompletion (k : ChatCompletion → Async)
| PendingSpeech (k : SpeechResponse → Async).

(** Run a handler until it stops at an await or ends; [st] is the state
    React holds, to which the updates of the handler apply in order. *)
Fixpoint advance (a : Async) (st : State) (log : list Call)
  : State * list Call * option Pending :=
  match a with
  | Return | Throw _ => (st, log, None)
  | SetState update k => advance k (update st) log
  | CreateChatCompletion req k =>
      (st, log ++ [CallOpenAI req], Some (PendingCompletion k))
  | AxiosPost url data headers k =>
      (st, log ++ [CallMurf url data headers], Some (PendingSpeech k))
  end.

(** The page.  [rendered] is the state of the last render: it is what
    the screen shows, and the handlers of the page were created with its
    values.  [latest] is the state React holds: the state of the last
    render with the updates made since, which the next render will
    show.  [in_flight] are the handlers waiting for an answer, [sent]
    the requests sent. *)
Record Page := {
  rendered : State;
  latest : State;
  in_flight : list Pending;
  sent : list Call;
}.

Definition initial_page : Page :=
  {| rendered := initial_state; latest := initial_state;
     in_flight := []; sent := [] |}.

(** The input and the send button carry
    [disabled={status === STATUS_TYPES.LOADING}], with the status of the
    last render. *)
Definition form_enabled (pg : Page) : Prop := status (rendered pg) ≠ LOADING.

(** A handler runs until it ends or stops at an await, and joins the
    handlers in flight if it stops.  Its updates go to the state React
    holds; what is rendered changes at the next render only. *)
Definition dispatch (a : Async) (others : list Pending) (pg : Page) : Page :=
  let '(st, log, p) := advance a (latest pg) (sent pg) in
  {| rendered := rendered pg; latest := st;
     in_flight := others ++ option_list p; sent := log |}.

(** React renders the component again, with the state it holds. *)
Definition rerender (pg : Page) : Page :=
  {| rendered := latest pg; latest := latest pg;
     in_flight := in_flight pg; sent := sent pg |}.

(** The handlers [handlePromptSubmit] can be waiting in: after the
    completion request, or after the speech request. *)
Fixpoint stops_at (a : Async) (p : Pending) : Prop :=
  match a with
  | Return | Throw _ => False
  | SetState _ k => stops_at k p
  | CreateChatCompletion _ k =>
      p = PendingCompletion k ∨ ∃ r, stops_at (k r) p
  | AxiosPost _ _ _ k =>
      p = PendingSpeech k ∨ ∃ r, stops_at (k r) p
  end.

(** ** What the claims speak of *)

(** The conversation: the turns of the recorded exchanges, in order. *)
Definition conversation (st : State) : list ChatGPTMessage :=
  push_queries (gptQueries st).

(** The requests [handlePromptSubmit] sends for the render [st], and
    for the first choice of the completion. *)
Definition completion_request (st : State) : CreateChatCompletionRequest :=
  {| model := "gpt-3.5-turbo";
     messages := push_queries (gptQueries st)
                   ++ [ {| msg_role := user; content := Some (prompt st) |} ];
     max_tokens := 1000 |}.

Definition speech_input (choice : Choice) : GenerateSpeechInput :=
  {| voiceId := "en-US-marcus"; text := reply_content choice; format := "MP3" |}.

Definition speech_url : string := baseURL +:+ "/speech/generate-with-key".

Definition speech_headers (env : Env) : list (string * string) :=
  [("api-key", VITE_MURF_API_KEY env); ("Content-Type", "application/json")].

(** The exchange recorded for the render [st] once the answer and its
    recording are there. *)
Definition exchange (st : State) (choice : Choice) (speech : SpeechResponse)
  : GPTQuery :=
  {| question := prompt st;
     gptResponse := reply_content choice;
     gptResponseAudioUrl := audioFile speech |}.

(** A prompt made of white space and line terminators only. *)
Definition white (prompt : js_string) : Prop :=
  Forall (λ c, is_trimmed c = true) prompt.

(** [p] is a call of [handlePromptSubmit] in flight on the page [pg]: the
    status React holds is [LOADING], and the handler was created by a
    render that had the history React holds now. *)
Definition submit_in_flight (env : Env) (pg : Page) (p : Pending) : Prop :=
  status (latest pg) = LOADING ∧
  ∃ render,
    gptQueries render = gptQueries (latest pg) ∧
    is_blank (prompt render) = false ∧
    stops_at (handlePromptSubmit env render) p.

(** Nothing is in flight, or one call of [handlePromptSubmit] is. *)
Definition one_submit (env : Env) (pg : Page) : Prop :=
  in_flight pg = [] ∨ ∃ p, in_flight pg = [p] ∧ submit_in_flight env pg p.

(** The narration references, one per exchange. *)
Definition narrations (st : State) : list (option js_string) :=
  gptResponseAudioUrl <$> gptQueries st.

(** ** Test doubles *)

Definition jupiter : ChatCompletion :=
  {| choices :=
       [ {| message :=
              Some {| msg_role := assistant;
                      content := Some (js "Jupiter is the largest planet") |} |} ] |}.

(** Services that always give the same answer and the same recording. *)
Definition parrot : Services :=
  {| createChatCompletion := λ _ _, inr jupiter;
     axios_post := λ _ _ _ _,
       inr {| audioFile := Some (js "https://murf.example/1.mp3") |} |}.

Definition test_env : Env :=
  {| VITE_OPENAI_API_KEY := "sk-test"; VITE_MURF_API_KEY := "murf-test" |}.

Definition asking (q : string) : Session :=
  {| ui := setPrompt (js q) initial_state; calls := [] |}.

Definition saturn : ChatCompletion :=
  {| choices :=
       [ {| message :=
              Some {| msg_role := assistant;
                      content := Some (js "Saturn has the rings") |} |} ] |}.

(** The first page with [q] typed in and rendered, and that page after a
    press of the send button. *)
Definition typed (q : string) : Page :=
  rerender (dispatch (handlePromptChange (js q)) [] initial_page).

Definition submitted (q : string) : Page :=
  dispatch (handlePromptSubmit test_env (rendered (typed q))) [] (typed q).

(** ** What the component shows *)

Record GPTQueryItemProps := {
  props_question : js_string;
  gptResponseId : nat;
  currentPlayingAudioId : option nat;
}.

(** A card: the question, the icon and the text of its button, and the
    argument its button passes to [handleAudioPlay]. *)
Record GPTQueryItemView := {
  shown_question : js_string;
  button_icon : string;
  button_text : string;
  on_click : nat;
}.

Definition GPTQueryItem (props : GPTQueryItemProps) : GPTQueryItemView :=
  {| shown_question := props_question props;
     button_icon :=
       if decide (currentPlayingAudioId props = Some (gptResponseId props))
       then "pause" else "play_arrow";
     button_text :=
       if decide (currentPlayingAudioId props = Some (gptResponseId props))
       then "Pause" else "Play";
     on_click := gptResponseId props |}.

(** The key of a card: the question, [ + ] and the index in decimal. *)
Definition item_key (question : js_string) (index : nat) : js_string :=
  question ++ js " + " ++ js (pretty index).

Inductive QueriesView :=
| Placeholder (text : string)
| Cards (cards : list (js_string * GPTQueryItemView)).

Record GPTFormView := {
  queries : QueriesView;
  input_value : js_string;
  input_disabled : bool;
  button_disabled : bool;
  button_spinner : bool;
  audio_src : option js_string;
}.

(** The [src] of the audio element:
    [gptQueries[currentAudioId].gptResponseAudioUrl] throws when there is
    no such exchange. *)
Definition audio_source (st : State) : error + option js_string :=
  match currentAudioId st with
  | None => inr None
  | Some id =>
      match gptQueries st !! id with
      | Some query => inr (gptResponseAudioUrl query)
      | None =>
          inl (TypeError "Cannot read properties of undefined (reading 'gptResponseAudioUrl')")
      end
  end.

Definition cards_of (st : State) : list (js_string * GPTQueryItemView) :=
  imap (λ index gptQuery,
          (item_key (question gptQuery) index,
           GPTQueryItem {| props_question := question gptQuery;
                           gptResponseId := index;
                           currentPlayingAudioId := currentAudioId st |}))
       (gptQueries st).

(** What [GPTForm] returns for the state [st]; the markup that does not
    depend on the state is left out. *)
Definition GPTForm (st : State) : error + GPTFormView :=
  match audio_source st with
  | inl e => inl e
  | inr src =>
      inr {| queries :=
               if decide (0 < length (gptQueries st))
               then Cards (cards_of st)
               else Placeholder "Start by asking a question";
             input_value := prompt st;
             input_disabled := bool_decide (status st = LOADING);
             button_disabled := bool_decide (status st = LOADING);
             button_spinner := bool_decide (status st = LOADING);
             audio_src := src |}
  end.

(** ** The events of the page *)

Inductive Event :=
| Typed (value : js_string)
| SendPressed
| PlayPressed (id : nat)
| AudioEnded
| Rendered
| CompletionAnswered (i : nat) (r : ChatCompletion)
| SpeechAnswered (i : nat) (r : SpeechResponse)
| RequestRejected (i : nat).

(** What can happen on a page.  The user acts on what is rendered: the
    input and the send button respond when the last render has not
    disabled them, a card's button exists when the last render has the
    card, and the handler that runs is the one of the last render.  A
    render may come at any time; it needs [GPTForm] to return.  The
    request of the [i]-th handler in flight is answered or rejected at
    any time. *)
Inductive step (env : Env) : Page → Event → Page → Prop :=
| step_change pg value :
    form_enabled pg →
    step env pg (Typed value)
      (dispatch (handlePromptChange value) (in_flight pg) pg)
| step_submit pg :
    form_enabled pg →
    step env pg SendPressed
      (dispatch (handlePromptSubmit env (rendered pg)) (in_flight pg) pg)
| step_audio_play pg id :
    id < length (gptQueries (rendered pg)) →
    step env pg (PlayPressed id)
      (dispatch (handleAudioPlay (rendered pg) id) (in_flight pg) pg)
| step_audio_end pg :
    step env pg AudioEnded (dispatch handleOnAudioPlayEnd (in_flight pg) pg)
| step_render pg view :
    GPTForm (latest pg) = inr view →
    step env pg Rendered (rerender pg)
| step_completion pg i k r :
    in_flight pg !! i = Some (PendingCompletion k) →
    step env pg (CompletionAnswered i r)
      (dispatch (k r) (delete i (in_flight pg)) pg)
| step_speech pg i k r :
    in_flight pg !! i = Some (PendingSpeech k) →
    step env pg (SpeechAnswered i r)
      (dispatch (k r) (delete i (in_flight pg)) pg)
| step_rejected pg i p :
    in_flight pg !! i = Some p →
    step env pg (RequestRejected i)
      {| rendered := rendered pg; latest := latest pg;
         in_flight := delete i (in_flight pg); sent := sent pg |}.

(** The pages the component gets to from the first render, through
    events that [allowed] lets happen. *)
Inductive reachable (env : Env) (allowed : Page → Event → Prop)
  : Page → Prop :=
| reachable_initial : reachable env allowed initial_page
| reachable_step pg ev pg' :
    reachable env allowed pg → allowed pg ev → step env pg ev pg' →
    reachable env allowed pg'.

Definition any_event (pg : Page) (ev : Event) : Prop := True.

(** The send button is pressed only on a page that shows the state React
    holds: every update made before the press has been rendered. *)
Definition send_on_fresh_render (pg : Page) (ev : Event) : Prop :=
  ev = SendPressed → rendered pg = latest pg.

(** Some event leads from one page to the other. *)
Definition some_event (env : Env) (pg pg' : Page) : Prop :=
  ∃ ev, step env pg ev pg'.

(** One event, when it can happen. *)
Definition happen (env : Env) (pg : Page) (ev : Event) : option Page :=
  match ev with
  | Typed value =>
      if decide (status (rendered pg) = LOADING) then None
      else Some (dispatch (handlePromptChange value) (in_flight pg) pg)
  | SendPressed =>
      if decide (status (rendered pg) = LOADING) then None
      else Some (dispatch (handlePromptSubmit env (rendered pg))
                   (in_flight pg) pg)
  | PlayPressed id =>
      if decide (id < length (gptQueries (rendered pg)))
      then Some (dispatch (handleAudioPlay (rendered pg) id) (in_flight pg) pg)
      else None
  | AudioEnded => Some (dispatch handleOnAudioPlayEnd (in_flight pg) pg)
  | Rendered =>
      match GPTForm (latest pg) with
      | inr _ => Some (rerender pg)
      | inl _ => None
      end
  | CompletionAnswered i r =>
      match in_flight pg !! i with
      | Some (PendingCompletion k) =>
          Some (dispatch (k r) (delete i (in_flight pg)) pg)
      | _ => None
      end
  | SpeechAnswered i r =>
      match in_flight pg !! i with
      | Some (PendingSpeech k) =>
          Some (dispatch (k r) (delete i (in_flight pg)) pg)
      | _ => None
      end
  | RequestRejected i =>
      match in_flight pg !! i with
      | Some _ =>
          Some {| rendered := rendered pg; latest := latest pg;
                  in_flight := delete i (in_flight pg); sent := sent pg |}
      | None => None
      end
  end.

(** A sequence of events, from the first to the last. *)
Fixpoint play (env : Env) (evs : list Event) (pg : Page) : option Page :=
  match evs with
  | [] => Some pg
  | ev :: rest =>
      match happen env pg ev with
      | Some pg' => play env rest pg'
      | None => None
      end
  end.

(** [send_on_fresh_render], as a test. *)
Definition fresh (pg : Page) (ev : Event) : bool :=
  match ev with
  | SendPressed => bool_decide (rendered pg = latest pg)
  | _ => true
  end.

(** A sequence of events in which the send button is pressed on fresh
    renders only. *)
Fixpoint play_fresh (env : Env) (evs : list Event) (pg : Page) : option Page :=
  match evs with
  | [] => Some pg
  | ev :: rest =>
      if fresh pg ev then
        match happen env pg ev with
        | Some pg' => play_fresh env rest pg'
        | None => None
        end
      else None
  end.

(** ** More vocabulary, for the properties beyond the claims *)

(** The form is disabled, also at the next render, and nothing is in
    flight that could enable it. *)
Definition locked (pg : Page) : Prop :=
  status (rendered pg) = LOADING ∧ status (latest pg) = LOADING ∧
  in_flight pg = [].

(** The recording selected, if any, is the one of a recorded exchange. *)
Definition audio_in_range (st : State) : Prop :=
  ∀ id, currentAudioId st = Some id → id < length (gptQueries st).

(** What is rendered is behind the state React holds by appended
    exchanges at most, and neither selects a recording that does not
    exist. *)
Definition in_step (pg : Page) : Prop :=
  gptQueries (rendered pg) `prefix_of` gptQueries (latest pg) ∧
  audio_in_range (rendered pg) ∧
  audio_in_range (latest pg).

Definition is_digit (c : N) : Prop := (48 ≤ c ≤ 57)%N.

(** ** More test doubles *)

(** Services whose completion has no choice. *)
Definition mute : Services :=
  {| createChatCompletion := λ _ _, inr {| choices := [] |};
     axios_post := axios_post parrot |}.

(** Services whose speech request is rejected. *)
Definition hoarse : Services :=
  {| createChatCompletion := createChatCompletion parrot;
     axios_post := λ _ _ _ _, inl (Rejected "Request failed with status code 402") |}.

(** Two presses of the send button before the component renders again,
    and the answer to the second one coming late: after the first
    submission has ended, another question has been asked and answered,
    and the recording of its answer has been selected. *)
Definition late_answer : list Event :=
  [Typed (js "Which is the largest planet?"); Rendered;
   SendPressed; SendPressed; Rendered;
   CompletionAnswered 0 jupiter;
   SpeechAnswered 1 {| audioFile := Some (js "https://murf.example/1.mp3") |};
   Rendered;
   Typed (js "Which one has rings?"); Rendered; SendPressed; Rendered;
   CompletionAnswered 1 saturn;
   SpeechAnswered 1 {| audioFile := Some (js "https://murf.example/2.mp3") |};
   Rendered;
   PlayPressed 1; Rendered;
   CompletionAnswered 0 jupiter;
   SpeechAnswered 0 {| audioFile := Some (js "https://murf.example/3.mp3") |}].

Definition asked : State :=
  setGptQueries
    [ {| question := js "Which is the largest planet?";
         gptResponse := Some (js "Jupiter is the largest planet");
         gptResponseAudioUrl := Some (js "https://murf.example/1.mp3") |};
      {| question := js "How big is it?";
         gptResponse := Some (js "Very big");
         gptResponseAudioUrl := Some (js "https://murf.example/2.mp3") |} ]
    initial_state.

End Chat.

(** * Part III: properties of the video service *)

Module VideoProofs.

Import Video.

Local Open Scope list_scope.

(** ** Running computations *)

Lemma bind_run {A B} (m : M A) (f : A → M B) (w : World) :
  (m ≫= f) w =
  match m w with
  | (w1, inr a) => f a w1
  | (w1, inl e) => (w1, inl e)
  end.
Proof. reflexivity. Qed.

Lemma bind_ok {A B} (m : M A) (f : A → M B) (w w' : World) (b : B) :
  (m ≫= f) w = (w', inr b) →
  ∃ w1 a, m w = (w1, inr a) ∧ f a w1 = (w', inr b).
Proof.
  rewrite bind_run. destruct (m w) as [w1 [e|a]]; [discriminate|].
  intros Hf. by exists w1, a.
Qed.

(** ** Computations that only send requests *)


Lemma quiet_mret {A} (a : A) : quiet (mret a : M A).
Proof. by intros w. Qed.

Lemma quiet_raise {A} (e : exn) : quiet (raise e : M A).
Proof. by intros w. Qed.

Lemma quiet_lift {A} (r : result A) : quiet (lift r).
Proof. by intros w. Qed.

Lemma quiet_request {A} (c : Call) (answer : nat → result A) :
  quiet (request c answer).
Proof. by intros w. Qed.

Lemma quiet_bind {A B} (m : M A) (f : A → M B) :
  quiet m → (∀ a, quiet (f a)) → quiet (m ≫= f).
Proof.
  intros Hm Hf w. rewrite bind_run.
  destruct (Hm w) as [Hfs Hop]. destruct (m w) as [w1 [e|a]]; simpl in *.
  - done.
  - destruct (Hf a w1) as [Hfs' Hop']. split; congruence.
Qed.

Create HintDb quiet.
#[export] Hint Resolve quiet_mret quiet_raise quiet_lift quiet_request : quiet.

Ltac quiet_steps :=
  repeat (first [ solve [auto with quiet]
                | apply quiet_bind; [|intros ?] ]).

Section Requests.

Context (svc : Services) (settings : Settings).

Lemma quiet_get_script (prompt : string) : quiet (get_script svc prompt).
Proof.
  unfold get_script. apply quiet_bind; [auto with quiet|intros choices].
  apply quiet_bind; [auto with quiet|intros [json_str|]]; auto with quiet.
Qed.

Lemma quiet_get_image (prompt : value) : quiet (get_image svc prompt).
Proof. unfold get_image. quiet_steps. Qed.

Lemma quiet_get_voiceover_url (text voice_id : value) :
  quiet (get_voiceover_url svc settings text voice_id).
Proof. unfold get_voiceover_url. quiet_steps. Qed.

Lemma quiet_get_ai_video_loop (items : list value) (data_list : list MediaPair) :
  quiet (get_ai_video_loop svc settings items data_list).
Proof.
  revert data_list. induction items as [|item items IH]; intros data_list; simpl.
  - auto with quiet.
  - pose proof quiet_get_image. pose proof quiet_get_voiceover_url.
    quiet_steps.
Qed.

Lemma get_image_run (prompt : value) (w : World) :
  get_image svc prompt w =
  (mkWorld (fs w) (trace w ++ [CallImage (image_request prompt)]) (opened w),
   image_answer svc (length (trace w)) prompt).
Proof.
  unfold get_image, image_answer. rewrite bind_run. unfold request. simpl.
  by destruct (images_generate svc _ _).
Qed.

Lemma get_voiceover_url_run (text voice_id : value) (w : World) :
  get_voiceover_url svc settings text voice_id w =
  (mkWorld (fs w)
     (trace w ++ [CallPost murf_url (murf_headers settings)
                    (murf_payload text voice_id)])
     (opened w),
   voice_answer svc settings (length (trace w)) text voice_id).
Proof.
  unfold get_voiceover_url, voice_answer. rewrite bind_run. unfold request.
  simpl. destruct (requests_post svc _ _ _ _) as [e|response]; [done|].
  rewrite bind_run. unfold lift.
  by destruct (json_loads svc _).
Qed.

(** The loop of [get_ai_video] runs [directive_media] on each item. *)
Lemma get_ai_video_loop_cons (item : value) (rest : list value)
    (data_list : list MediaPair) (w : World) :
  get_ai_video_loop svc settings (item :: rest) data_list w =
  match directive_media svc settings item w with
  | (w1, inr mp) => get_ai_video_loop svc settings rest (data_list ++ [mp]) w1
  | (w1, inl e) => (w1, inl e)
  end.
Proof.
  simpl. unfold directive_media. rewrite !bind_run. unfold lift at 1 4.
  destruct (py_getitem item "imagePrompt") as [e|p]; [done|].
  rewrite !bind_run. destruct (get_image svc p w) as [w1 [e|image_url]]; [done|].
  rewrite !bind_run. unfold lift at 1 3.
  destruct (py_getitem item "text") as [e|tx]; [done|].
  rewrite !bind_run. unfold lift at 1 2.
  destruct (py_getitem item "voiceId") as [e|vo]; [done|].
  rewrite !bind_run.
  by destruct (get_voiceover_url svc settings tx vo w1) as [w2 [e|audio_url]].
Qed.

Lemma directive_media_ok (item : value) (w w' : World) (mp : MediaPair) :
  directive_media svc settings item w = (w', inr mp) →
  made_from svc settings (length (trace w)) item mp ∧
  w' = mkWorld (fs w) (trace w ++ item_calls settings item) (opened w).
Proof.
  unfold directive_media, made_from, item_calls. rewrite bind_run.
  unfold lift at 1.
  destruct (py_getitem item "imagePrompt") as [e|p]; [done|].
  rewrite bind_run, get_image_run.
  destruct (image_answer svc (length (trace w)) p) as [e|image_url] eqn:Himg;
    [done|].
  rewrite bind_run. unfold lift at 1.
  destruct (py_getitem item "text") as [e|tx]; [done|].
  rewrite bind_run. unfold lift at 1.
  destruct (py_getitem item "voiceId") as [e|vo]; [done|].
  rewrite bind_run, get_voiceover_url_run. simpl.
  rewrite length_app, Nat.add_1_r.
  destruct (voice_answer svc settings (S (length (trace w))) tx vo)
    as [e|audio_url] eqn:Hvoice; [done|].
  intros [= <- <-]. split.
  - by exists p, tx, vo.
  - by rewrite <- app_assoc.
Qed.

Lemma directive_media_complete (item : value) (w : World) (mp : MediaPair) :
  made_from svc settings (length (trace w)) item mp →
  directive_media svc settings item w =
  (mkWorld (fs w) (trace w ++ item_calls settings item) (opened w), inr mp).
Proof.
  intros (p & tx & vo & Hp & Htx & Hvo & Himg & Hvoice).
  unfold directive_media, item_calls. rewrite Hp, Htx, Hvo.
  rewrite bind_run. unfold lift at 1.
  rewrite bind_run, get_image_run, Himg.
  rewrite bind_run. unfold lift at 1.
  rewrite bind_run. unfold lift at 1.
  rewrite bind_run, get_voiceover_url_run. simpl.
  rewrite length_app, Nat.add_1_r, Hvoice, <- app_assoc.
  by destruct mp.
Qed.

Lemma get_ai_video_loop_app (xs ys : list value) (data_list : list MediaPair)
    (w : World) :
  get_ai_video_loop svc settings (xs ++ ys) data_list w =
  match get_ai_video_loop svc settings xs data_list w with
  | (w1, inr data_list1) => get_ai_video_loop svc settings ys data_list1 w1
  | (w1, inl e) => (w1, inl e)
  end.
Proof.
  revert data_list w. induction xs as [|x xs IH]; intros data_list w.
  - done.
  - rewrite <- app_comm_cons, !get_ai_video_loop_cons.
    destruct (directive_media svc settings x w) as [w1 [e|mp]]; [done|].
    apply IH.
Qed.

(** A successful run of the loop: one mp per item, in the order of the
    items, each made from its own item; two requests per item and nothing
    else. *)
Lemma get_ai_video_loop_ok (items : list value) (data_list out : list MediaPair)
    (w w' : World) :
  get_ai_video_loop svc settings items data_list w = (w', inr out) →
  ∃ pairs,
    out = data_list ++ pairs ∧
    length pairs = length items ∧
    (∀ i item, items !! i = Some item →
       ∃ mp, pairs !! i = Some mp ∧
               made_from svc settings (length (trace w) + 2 * i) item mp) ∧
    w' = mkWorld (fs w) (trace w ++ (items ≫= item_calls settings)) (opened w) ∧
    length (trace w') = length (trace w) + 2 * length items.
Proof.
  revert data_list w. induction items as [|item items IH]; intros data_list w.
  - intros [= <- <-]. exists []. rewrite !app_nil_r. repeat split.
    + intros i item Hi. by rewrite lookup_nil in Hi.
    + by destruct w.
    + simpl. lia.
  - rewrite get_ai_video_loop_cons.
    destruct (directive_media svc settings item w) as [w1 [e|mp]] eqn:Hitem;
      [done|].
    apply directive_media_ok in Hitem as [Hmade Hw1].
    intros Hrest. apply IH in Hrest as (pairs & -> & Hlen & Hnth & -> & Hclock).
    assert (length (trace w1) = length (trace w) + 2) as Hw1len.
    { subst w1. simpl. rewrite length_app. f_equal.
      destruct Hmade as (p & tx & vo & Hp & Htx & Hvo & _).
      unfold item_calls. by rewrite Hp, Htx, Hvo. }
    exists (mp :: pairs). repeat split.
    + by rewrite <- app_assoc.
    + simpl. by rewrite Hlen.
    + intros [|i] item' Hi; simpl in Hi.
      * injection Hi as <-. exists mp. split; [done|].
        by rewrite Nat.mul_0_r, Nat.add_0_r.
      * destruct (Hnth i item' Hi) as (mp' & Hmp' & Hmade').
        exists mp'. split; [done|].
        replace (length (trace w) + 2 * S i)
          with (length (trace w1) + 2 * i) by lia.
        done.
    + subst w1. simpl. by rewrite <- app_assoc.
    + simpl in *. lia.
Qed.

(** When every directive's two requests succeed at the time they are
    made, the loop returns. *)
Lemma get_ai_video_loop_complete (items : list value)
    (data_list : list MediaPair) (w : World) :
  (∀ i item, items !! i = Some item →
     ∃ mp, made_from svc settings (length (trace w) + 2 * i) item mp) →
  ∃ w' pairs,
    get_ai_video_loop svc settings items data_list w
    = (w', inr (data_list ++ pairs)) ∧
    length pairs = length items.
Proof.
  revert data_list w. induction items as [|item items IH]; intros data_list w H.
  - exists w, []. by rewrite app_nil_r.
  - destruct (H 0 item eq_refl) as [mp Hmp].
    rewrite Nat.mul_0_r, Nat.add_0_r in Hmp.
    rewrite get_ai_video_loop_cons, (directive_media_complete _ _ _ Hmp).
    set (w1 := mkWorld _ _ _).
    assert (length (trace w1) = length (trace w) + 2) as Hw1len.
    { unfold w1. simpl. rewrite length_app. f_equal.
      destruct Hmp as (p & tx & vo & Hp & Htx & Hvo & _).
      unfold item_calls. by rewrite Hp, Htx, Hvo. }
    destruct (IH (data_list ++ [mp]) w1) as (w' & pairs & Hrun & Hlen).
    { intros i item' Hi. destruct (H (S i) item' Hi) as [mp' Hmp'].
      exists mp'.
      replace (length (trace w1) + 2 * i)
        with (length (trace w) + 2 * S i) by lia.
      done. }
    exists w', (mp :: pairs). split.
    + by rewrite Hrun, <- app_assoc.
    + simpl. by rewrite Hlen.
Qed.

End Requests.

(** ** Names of the scratch files *)

Lemma string_length_app (s1 s2 : string) :
  String.length (s1 +:+ s2) = String.length s1 + String.length s2.
Proof. induction s1 as [|a s1 IH]; simpl; [done|]. by rewrite <- IH. Qed.

Lemma string_app_inj_r (s1 s2 t : string) : s1 +:+ t = s2 +:+ t → s1 = s2.
Proof.
  revert s2. induction s1 as [|a s1 IH]; intros [|b s2] H.
  - done.
  - apply (f_equal String.length) in H.
    change (String b s2 +:+ t) with (String b (s2 +:+ t)) in H.
    simpl in H. rewrite !string_length_app in H. simpl in H. lia.
  - apply (f_equal String.length) in H.
    change (String a s1 +:+ t) with (String a (s1 +:+ t)) in H.
    simpl in H. rewrite !string_length_app in H. simpl in H. lia.
  - change (String a (s1 +:+ t) = String b (s2 +:+ t)) in H.
    injection H as -> H. f_equal. by apply IH.
Qed.

Lemma image_name_inj (i j : nat) : image_name i = image_name j → i = j.
Proof.
  unfold image_name. intros H.
  apply String.app_inj, string_app_inj_r in H. by apply (inj pretty).
Qed.

Lemma audio_name_inj (i j : nat) : audio_name i = audio_name j → i = j.
Proof.
  unfold audio_name. intros H.
  apply String.app_inj, string_app_inj_r in H. by apply (inj pretty).
Qed.

Lemma image_name_audio_name (i j : nat) : image_name i ≠ audio_name j.
Proof. unfold image_name, audio_name. intros H. discriminate H. Qed.

Lemma image_name_output_path (i : nat) : image_name i ≠ output_path.
Proof. unfold image_name, output_path. intros H. discriminate H. Qed.

Lemma audio_name_output_path (i : nat) : audio_name i ≠ output_path.
Proof. unfold audio_name, output_path. intros H. discriminate H. Qed.

Lemma elem_of_scratch_names (name : string) (counter k : nat) :
  name ∈ scratch_names counter k ↔
  ∃ i, i < k ∧ (name = image_name (counter + i) ∨ name = audio_name (counter + i)).
Proof.
  revert counter. induction k as [|k IH]; intros counter; simpl.
  - split; [by intros ?%elem_of_nil|]. intros (i & ? & _). lia.
  - rewrite !elem_of_cons, IH. split.
    + intros [-> | [-> | (i & Hi & H)]].
      * exists 0. rewrite Nat.add_0_r. split; [lia|by left].
      * exists 0. rewrite Nat.add_0_r. split; [lia|by right].
      * exists (S i). rewrite Nat.add_succ_r. split; [lia|done].
    + intros ([|i] & Hi & H).
      * rewrite Nat.add_0_r in H. tauto.
      * right. right. exists i. rewrite Nat.add_succ_r in H. split; [lia|done].
Qed.

(** No two scratch files of one run share a name, and none is the
    output file. *)
Lemma NoDup_scratch_names (counter k : nat) :
  NoDup (scratch_names counter k ++ [output_path]).
Proof.
  apply NoDup_app. split; [|split].
  - revert counter. induction k as [|k IH]; intros counter; simpl.
    + constructor.
    + constructor; [|constructor; [|apply IH]].
      * rewrite elem_of_cons, elem_of_scratch_names.
        intros [H|(i & _ & [H|H])].
        -- by apply image_name_audio_name in H.
        -- apply image_name_inj in H. lia.
        -- by apply image_name_audio_name in H.
      * rewrite elem_of_scratch_names. intros (i & _ & [H|H]).
        -- symmetry in H. by apply image_name_audio_name in H.
        -- apply audio_name_inj in H. lia.
  - intros name (i & _ & [-> | ->])%elem_of_scratch_names Hout%list_elem_of_singleton.
    + by apply image_name_output_path in Hout.
    + by apply audio_name_output_path in Hout.
  - apply NoDup_singleton.
Qed.

(** ** Scratch files are never removed *)

Lemma temp_audiofile_output_path :
  temp_audiofile output_path = "output_videoTEMP_MPY_wvf_snd.mp3".
Proof. by vm_compute. Qed.

Lemma temp_audiofile_scratch : ¬ scratch_path (temp_audiofile output_path).
Proof.
  rewrite temp_audiofile_output_path.
  intros (i & [H|H]); unfold image_name, audio_name in H; discriminate H.
Qed.

Lemma temp_audiofile_not_output : temp_audiofile output_path ≠ output_path.
Proof. rewrite temp_audiofile_output_path. intros H. discriminate H. Qed.

Lemma splitext_output_path :
  splitext (basename output_path) = ("output_video", ".mp4").
Proof. by vm_compute. Qed.

Lemma default_audio_codec_mp4 :
  default_audio_codec (extension_of ".mp4") = "libmp3lame".
Proof. by vm_compute. Qed.

Lemma quiet_keeps_scratch {A} (m : M A) : quiet m → keeps_scratch m.
Proof.
  intros H w. destruct (H w) as [Hfs Hop]. exists [].
  rewrite app_nil_r, Hfs. split; [done|].
  by intros name _ [?|?%elem_of_nil].
Qed.

Lemma keeps_scratch_bind {A B} (m : M A) (f : A → M B) :
  keeps_scratch m → (∀ a, keeps_scratch (f a)) → keeps_scratch (m ≫= f).
Proof.
  intros Hm Hf w. rewrite bind_run.
  destruct (Hm w) as (paths1 & Hop1 & Hkept1).
  destruct (m w) as [w1 [e|a]]; simpl in *; [by exists paths1|].
  destruct (Hf a w1) as (paths2 & Hop2 & Hkept2).
  exists (paths1 ++ paths2). split.
  - by rewrite Hop2, Hop1, app_assoc.
  - intros name Hname Hin. apply Hkept2; [done|].
    destruct Hin as [Hin|[Hin|Hin]%elem_of_app]; auto.
Qed.

Lemma quiet_read_file (path : string) : quiet (read_file path).
Proof. intros w. unfold read_file. by destruct (fs w !! path). Qed.

Lemma keeps_scratch_open_wb (path : string) : keeps_scratch (open_wb path).
Proof.
  intros w. exists [path]. split; [done|]. simpl.
  intros name _ Hin. rewrite dom_insert_L. set_solver.
Qed.

Lemma keeps_scratch_file_write (path : string) (f : file) :
  keeps_scratch (file_write path f).
Proof.
  intros w. exists []. simpl. rewrite app_nil_r. split; [done|].
  intros name _ Hin. rewrite dom_insert_L. set_solver.
Qed.

(** Removing a file that is no scratch file keeps the scratch files. *)
Lemma keeps_scratch_remove_if_exists (path : string) :
  ¬ scratch_path path → keeps_scratch (remove_if_exists path).
Proof.
  intros Hpath w. exists []. simpl. rewrite app_nil_r. split; [done|].
  intros name Hname [Hin|Hin%elem_of_nil]; [|done].
  rewrite dom_delete_L. apply elem_of_difference. split; [done|].
  intros ->%elem_of_singleton. done.
Qed.

Create HintDb files.
#[export] Hint Resolve quiet_keeps_scratch keeps_scratch_open_wb
  keeps_scratch_file_write : files.
#[export] Hint Resolve quiet_mret quiet_raise quiet_lift quiet_request
  quiet_read_file quiet_get_script quiet_get_ai_video_loop : files.

Ltac files_steps :=
  repeat (first [ solve [auto with files]
                | apply keeps_scratch_bind; [|intros ?] ]).

Section Files.

Context (svc : Services) (settings : Settings).

Lemma keeps_scratch_write_chunks (path : string) (written : list Byte.byte)
    (cs : list (list Byte.byte)) :
  keeps_scratch (write_chunks path written cs).
Proof.
  revert written. induction cs as [|chunk cs IH]; intros written; simpl.
  - auto with files.
  - files_steps.
Qed.

Lemma keeps_scratch_download_file (url : value) (local_filename : string) :
  keeps_scratch (download_file svc url local_filename).
Proof.
  pose proof keeps_scratch_write_chunks.
  unfold download_file, raise_for_status. files_steps.
  - case_decide; auto with files.
  - destruct (interrupted _); auto with files.
Qed.

Lemma keeps_scratch_write_audiofile (sound : CompositeAudioClip)
    (audiofile audio_codec : string) :
  keeps_scratch (write_audiofile svc sound audiofile audio_codec).
Proof.
  unfold write_audiofile.
  destruct (ffmpeg_audiowrite svc sound audio_codec) as [|e [partial|]];
    files_steps.
Qed.

Lemma keeps_scratch_ffmpeg_write_video (video : CompositeVideoClip)
    (filename : string) (fps : nat) (codec : string) :
  keeps_scratch (ffmpeg_write_video svc video filename fps codec).
Proof.
  unfold ffmpeg_write_video.
  destruct (ffmpeg_write svc video fps codec) as [|e [partial|]]; files_steps.
Qed.

(** The one file [write_videofile] removes is the sound file it made. *)
Lemma keeps_scratch_write_videofile (video : CompositeVideoClip)
    (filename : string) (fps : nat) (codec : string) :
  ¬ scratch_path (temp_audiofile filename) →
  keeps_scratch (write_videofile svc video filename fps codec).
Proof.
  intros Htemp.
  pose proof keeps_scratch_write_audiofile.
  pose proof keeps_scratch_ffmpeg_write_video.
  pose proof (keeps_scratch_remove_if_exists _ Htemp).
  unfold write_videofile. destruct (audio video) as [sound|]; [|done].
  destruct (splitext (basename filename)) as [name ext]. files_steps.
Qed.

Lemma keeps_scratch_get_final_video_loop (data_list : list MediaPair)
    (counter : nat) (video_clips : list VideoClip) :
  keeps_scratch (get_final_video_loop svc data_list counter video_clips).
Proof.
  pose proof keeps_scratch_download_file.
  revert counter video_clips.
  induction data_list as [|data rest IH]; intros counter video_clips; simpl.
  - auto with files.
  - unfold AudioFileClip_open, ImageClip_open. cbv zeta. files_steps.
Qed.

Lemma keeps_scratch_get_final_video (data_list : list MediaPair) :
  keeps_scratch (get_final_video svc data_list).
Proof.
  pose proof keeps_scratch_get_final_video_loop.
  pose proof (λ video fps codec,
    keeps_scratch_write_videofile video output_path fps codec
      temp_audiofile_scratch).
  unfold get_final_video. files_steps.
Qed.

Lemma keeps_scratch_get_ai_video (payload : GenerateVideoPayload) :
  keeps_scratch (get_ai_video svc settings payload).
Proof.
  pose proof keeps_scratch_get_final_video.
  unfold get_ai_video. files_steps.
Qed.

(** ** Downloads *)

Lemma write_chunks_run (path : string) (written : list Byte.byte)
    (cs : list (list Byte.byte)) (w : World) :
  fs w !! path = Some (Raw written) →
  write_chunks path written cs w =
  (mkWorld (<[path := Raw (written ++ concat cs)]> (fs w)) (trace w) (opened w),
   inr tt).
Proof.
  revert written w. induction cs as [|chunk cs IH]; intros written w Hfile; simpl.
  - rewrite app_nil_r, insert_id by done. by destruct w.
  - rewrite bind_run. unfold file_write at 1.
    rewrite IH by apply lookup_insert_eq. simpl.
    by rewrite insert_insert_eq, <- app_assoc.
Qed.

(** A download that returns has fetched the whole stream into the file. *)
Lemma download_file_ok (url : value) (local_filename p : string) (w w' : World) :
  download_file svc url local_filename w = (w', inr p) →
  ∃ r,
    requests_get svc (length (trace w)) url = inr r ∧
    p = local_filename ∧
    w' = mkWorld (<[local_filename := Raw (concat (chunks r))]> (fs w))
           (trace w ++ [CallGet url]) (opened w ++ [local_filename]).
Proof.
  unfold download_file. rewrite bind_run. unfold request at 1. simpl.
  destruct (requests_get svc (length (trace w)) url) as [e|r]; [done|].
  rewrite bind_run. unfold raise_for_status.
  case_decide; [done|]. simpl.
  rewrite bind_run. unfold open_wb at 1. simpl.
  rewrite bind_run, (write_chunks_run _ []) by apply lookup_insert_eq. simpl.
  rewrite insert_insert_eq.
  destruct (interrupted r); [done|].
  intros [= <- <-]. by exists r.
Qed.

(** ** The loop of [get_final_video] *)

Lemma get_final_video_loop_cons (data : MediaPair) (rest : list MediaPair)
    (counter : nat) (video_clips : list VideoClip) (w : World) :
  get_final_video_loop svc (data :: rest) counter video_clips w =
  match pair_clip svc counter data w with
  | (w1, inr clip) =>
      get_final_video_loop svc rest (S counter) (video_clips ++ [clip]) w1
  | (w1, inl e) => (w1, inl e)
  end.
Proof.
  simpl. unfold pair_clip. cbv zeta. rewrite !bind_run.
  destruct (download_file svc (imageUrl data) (image_name counter) w)
    as [w1 [e|image_path]]; [done|].
  rewrite !bind_run.
  destruct (download_file svc (audioUrl data) (audio_name counter) w1)
    as [w2 [e|audio_path]]; [done|].
  rewrite !bind_run.
  destruct (AudioFileClip_open svc audio_path w2) as [w3 [e|audio_clip]]; [done|].
  rewrite !bind_run.
  by destruct (ImageClip_open svc image_path _ w3) as [w4 [e|video_clip]].
Qed.

Lemma pair_clip_ok (counter : nat) (data : MediaPair) (w w' : World)
    (clip : VideoClip) :
  pair_clip svc counter data w = (w', inr clip) →
  segment_of svc (length (trace w)) counter data clip ∧
  trace w' = trace w ++ [CallGet (imageUrl data); CallGet (audioUrl data)] ∧
  opened w' = opened w ++ [image_name counter; audio_name counter] ∧
  dom (fs w') = {[image_name counter; audio_name counter]} ∪ dom (fs w).
Proof.
  unfold pair_clip. cbv zeta. intros H.
  apply bind_ok in H as (w1 & image_path & Himage & H).
  apply download_file_ok in Himage as (picture & Hpicture & -> & ->).
  apply bind_ok in H as (w2 & audio_path & Haudio & H).
  apply download_file_ok in Haudio as (narration & Hnarration & -> & ->).
  simpl in Hnarration. rewrite length_app, Nat.add_1_r in Hnarration.
  apply bind_ok in H as (w3 & a & Hopen & H).
  unfold AudioFileClip_open in Hopen.
  apply bind_ok in Hopen as (w3' & f & Hread & Hopen).
  unfold read_file in Hread. simpl in Hread.
  rewrite lookup_insert_eq in Hread. injection Hread as <- <-.
  apply bind_ok in Hopen as (w3' & d & Hd & Hopen).
  injection Hd as <- Hd. injection Hopen as <- <-.
  apply bind_ok in H as (w4 & c & Hopen & H).
  unfold ImageClip_open in Hopen.
  apply bind_ok in Hopen as (w4' & f & Hread & Hopen).
  unfold read_file in Hread. simpl in Hread.
  rewrite lookup_insert_ne, lookup_insert_eq in Hread
    by (intros Heq; symmetry in Heq; by apply image_name_audio_name in Heq).
  injection Hread as <- <-.
  apply bind_ok in Hopen as (w4' & img & Himg & Hopen).
  injection Himg as <- Himg. injection Hopen as <- <-.
  injection H as <- <-. simpl. repeat split.
  - by exists picture, narration,
      {| audio_filename := audio_name counter; audio_duration := d |}.
  - by rewrite <- app_assoc.
  - by rewrite <- app_assoc.
  - rewrite !dom_insert_L. set_solver.
Qed.

(** A successful run of the loop: one segment per pair, in the order of
    the pairs, each built from its own pair; two downloads and two
    scratch files per pair; no file is lost. *)
Lemma get_final_video_loop_ok (data_list : list MediaPair) (counter : nat)
    (video_clips out : list VideoClip) (w w' : World) :
  get_final_video_loop svc data_list counter video_clips w = (w', inr out) →
  ∃ segments,
    out = video_clips ++ segments ∧
    length segments = length data_list ∧
    (∀ i data, data_list !! i = Some data →
       ∃ clip, segments !! i = Some clip ∧
               segment_of svc (length (trace w) + 2 * i) (counter + i) data clip) ∧
    opened w' = opened w ++ scratch_names counter (length data_list) ∧
    dom (fs w') = list_to_set (scratch_names counter (length data_list))
                  ∪ dom (fs w).
Proof.
  revert counter video_clips w.
  induction data_list as [|data rest IH]; intros counter video_clips w.
  - intros [= <- <-]. exists []. simpl. rewrite !app_nil_r. repeat split.
    + intros i data Hi. by rewrite lookup_nil in Hi.
    + set_solver.
  - rewrite get_final_video_loop_cons.
    destruct (pair_clip svc counter data w) as [w1 [e|clip]] eqn:Hclip; [done|].
    apply pair_clip_ok in Hclip as (Hseg & Htrace & Hopened & Hdom).
    intros Hrest.
    apply IH in Hrest as (segments & -> & Hlen & Hnth & Hopened' & Hdom').
    assert (length (trace w1) = length (trace w) + 2) as Hclock.
    { rewrite Htrace, length_app. done. }
    exists (clip :: segments). repeat split.
    + by rewrite <- app_assoc.
    + simpl. by rewrite Hlen.
    + intros [|i] data' Hi; simpl in Hi.
      * injection Hi as <-. exists clip. split; [done|].
        by rewrite Nat.mul_0_r, !Nat.add_0_r.
      * destruct (Hnth i data' Hi) as (clip' & Hclip' & Hseg').
        exists clip'. split; [done|].
        replace (length (trace w) + 2 * S i)
          with (length (trace w1) + 2 * i) by lia.
        by rewrite Nat.add_succ_r.
    + rewrite Hopened', Hopened. simpl. by rewrite <- app_assoc.
    + rewrite Hdom', Hdom. simpl. set_solver.
Qed.

(** ** What the loop downloads *)

Lemma get_final_video_loop_trace (data_list : list MediaPair) (counter : nat)
    (video_clips out : list VideoClip) (w w' : World) :
  get_final_video_loop svc data_list counter video_clips w = (w', inr out) →
  trace w' = trace w ++ (data_list ≫= pair_calls).
Proof.
  revert counter video_clips w.
  induction data_list as [|data rest IH]; intros counter video_clips w.
  - intros [= <- _]. by rewrite app_nil_r.
  - rewrite get_final_video_loop_cons.
    destruct (pair_clip svc counter data w) as [w1 [e|clip]] eqn:Hclip; [done|].
    apply pair_clip_ok in Hclip as (_ & Htrace & _).
    intros Hrest%IH. rewrite Hrest, Htrace, <- app_assoc. done.
Qed.

(** ** What the scratch files hold *)

Lemma pair_clip_files (counter : nat) (data : MediaPair) (w w' : World)
    (clip : VideoClip) :
  pair_clip svc counter data w = (w', inr clip) →
  ∃ picture narration,
    requests_get svc (length (trace w)) (imageUrl data) = inr picture ∧
    requests_get svc (S (length (trace w))) (audioUrl data) = inr narration ∧
    fs w' = <[audio_name counter := Raw (concat (chunks narration))]>
              (<[image_name counter := Raw (concat (chunks picture))]> (fs w)) ∧
    length (trace w') = length (trace w) + 2.
Proof.
  unfold pair_clip. cbv zeta. intros H.
  apply bind_ok in H as (w1 & image_path & Himage & H).
  apply download_file_ok in Himage as (picture & Hpicture & -> & ->).
  apply bind_ok in H as (w2 & audio_path & Haudio & H).
  apply download_file_ok in Haudio as (narration & Hnarration & -> & ->).
  simpl in Hnarration. rewrite length_app, Nat.add_1_r in Hnarration.
  apply bind_ok in H as (w3 & a & Hopen & H).
  unfold AudioFileClip_open in Hopen.
  apply bind_ok in Hopen as (w3' & f & Hread & Hopen).
  unfold read_file in Hread. simpl in Hread.
  rewrite lookup_insert_eq in Hread. injection Hread as <- <-.
  apply bind_ok in Hopen as (w3' & d & Hd & Hopen).
  injection Hd as <- Hd. injection Hopen as <- <-.
  apply bind_ok in H as (w4 & c & Hopen & H).
  unfold ImageClip_open in Hopen.
  apply bind_ok in Hopen as (w4' & f & Hread & Hopen).
  unfold read_file in Hread. simpl in Hread.
  destruct (_ !! image_name counter) as [f'|]; [|done].
  injection Hread as <- <-.
  apply bind_ok in Hopen as (w4' & img & Himg & Hopen).
  injection Himg as <- Himg. injection Hopen as <- <-.
  injection H as <- <-. simpl.
  exists picture, narration. repeat split; try done.
  rewrite !length_app. simpl. lia.
Qed.

Lemma get_final_video_loop_files (data_list : list MediaPair) (counter : nat)
    (video_clips out : list VideoClip) (w w' : World) :
  get_final_video_loop svc data_list counter video_clips w = (w', inr out) →
  (∀ name, name ∉ scratch_names counter (length data_list) →
           fs w' !! name = fs w !! name) ∧
  (∀ i data, data_list !! i = Some data →
     ∃ picture narration,
       requests_get svc (length (trace w) + 2 * i) (imageUrl data)
         = inr picture ∧
       requests_get svc (length (trace w) + 2 * i + 1) (audioUrl data)
         = inr narration ∧
       fs w' !! image_name (counter + i)
         = Some (Raw (concat (chunks picture))) ∧
       fs w' !! audio_name (counter + i)
         = Some (Raw (concat (chunks narration)))).
Proof.
  revert counter video_clips w.
  induction data_list as [|data rest IH]; intros counter video_clips w.
  - intros [= <- _]. split; [done|].
    intros i data Hi. by rewrite lookup_nil in Hi.
  - rewrite get_final_video_loop_cons.
    destruct (pair_clip svc counter data w) as [w1 [e|clip]] eqn:Hclip; [done|].
    apply pair_clip_files in Hclip
      as (picture & narration & Hpicture & Hnarration & Hfs & Hclock).
    intros Hrest. apply IH in Hrest as [Hframe Hheld].
    assert (∀ name, (name = image_name counter ∨ name = audio_name counter) →
                    name ∉ scratch_names (S counter) (length rest)) as Hlater.
    { intros name Hname (j & _ & Hj)%elem_of_scratch_names.
      destruct Hname as [-> | ->], Hj as [Hj|Hj].
      - apply image_name_inj in Hj. lia.
      - by apply image_name_audio_name in Hj.
      - symmetry in Hj. by apply image_name_audio_name in Hj.
      - apply audio_name_inj in Hj. lia. }
    split.
    + intros name Hname. simpl in Hname.
      rewrite !not_elem_of_cons in Hname. destruct Hname as (Hi & Ha & Hname).
      rewrite (Hframe name Hname), Hfs.
      by rewrite !lookup_insert_ne.
    + intros [|i] data' Hi; simpl in Hi.
      * injection Hi as <-. exists picture, narration.
        rewrite Nat.mul_0_r, !Nat.add_0_r, Nat.add_1_r.
        repeat split; try done.
        -- rewrite (Hframe _ (Hlater _ (or_introl eq_refl))), Hfs.
           rewrite lookup_insert_ne, lookup_insert_eq; [done|].
           intros Heq. symmetry in Heq. by apply image_name_audio_name in Heq.
        -- rewrite (Hframe _ (Hlater _ (or_intror eq_refl))), Hfs.
           by rewrite lookup_insert_eq.
      * destruct (Hheld i data' Hi) as (p & n & Hp & Hn & Hpf & Hnf).
        exists p, n.
        replace (length (trace w) + 2 * S i)
          with (length (trace w1) + 2 * i) by lia.
        by replace (counter + S i) with (S counter + i) by lia.
Qed.

End Files.

(** ** Composition *)

Lemma cumsum_last (acc : Z) (ds : list Z) :
  last (cumsum acc ds) = Some (acc + Zsum ds)%Z.
Proof.
  revert acc. induction ds as [|d ds IH]; intros acc; simpl.
  - f_equal. unfold Zsum. simpl. lia.
  - rewrite last_cons, IH. f_equal. unfold Zsum. simpl. lia.
Qed.

(** The video lasts as long as its segments together. *)
Lemma concatenate_videoclips_ok (video_clips : list VideoClip)
    (video : CompositeVideoClip) :
  concatenate_videoclips video_clips = inr video →
  clips video = video_clips ∧
  duration video = Zsum (clip_duration <$> video_clips) ∧
  video_clips ≠ [].
Proof.
  unfold concatenate_videoclips. destruct video_clips as [|c cs]; [done|].
  intros [= <-]. simpl. split; [done|]. split; [|done].
  change (default 0%Z (last (cumsum 0 (clip_duration <$> c :: cs)))
          = Zsum (clip_duration <$> c :: cs)).
  by rewrite cumsum_last.
Qed.

(** A video whose first part has sound has sound. *)
Lemma concatenate_videoclips_audio (c : VideoClip) (cs : list VideoClip)
    (a : AudioFileClip) (video : CompositeVideoClip) :
  concatenate_videoclips (c :: cs) = inr video →
  clip_audio c = Some a →
  ∃ tracks, audio video = Some ((a, 0%Z) :: tracks).
Proof.
  unfold concatenate_videoclips. intros [= <-] Ha. simpl. rewrite Ha.
  by eexists.
Qed.

(** On a length that is not negative, [int] is the floor. *)
Lemma py_int_floor (x : Q) : (0 <= x)%Q → py_int x = Qfloor x.
Proof.
  destruct x as [num den]. unfold py_int, Qfloor, Qle. simpl. intros H.
  apply Z.quot_div_nonneg; lia.
Qed.

(** ** The two entry points *)

Section Pipeline.

Context (svc : Services) (settings : Settings).

Lemma quiet_directive_media (item : value) :
  quiet (directive_media svc settings item).
Proof.
  pose proof (quiet_get_image svc).
  pose proof (quiet_get_voiceover_url svc settings).
  unfold directive_media. quiet_steps.
Qed.

Lemma write_audiofile_ok (sound : CompositeAudioClip)
    (audiofile audio_codec : string) (w w' : World) (u : unit) :
  write_audiofile svc sound audiofile audio_codec w = (w', inr u) →
  w' = mkWorld (<[audiofile := EncodedAudio sound audio_codec]> (fs w))
         (trace w) (opened w).
Proof.
  unfold write_audiofile.
  destruct (ffmpeg_audiowrite svc sound audio_codec) as [|e [partial|]].
  - by intros [= <-].
  - intros H. by apply bind_ok in H as (w1 & [] & _ & H).
  - done.
Qed.

Lemma ffmpeg_write_video_ok (video : CompositeVideoClip) (filename : string)
    (fps : nat) (codec : string) (w w' : World) (u : unit) :
  ffmpeg_write_video svc video filename fps codec w = (w', inr u) →
  w' = mkWorld (<[filename := Encoded video fps codec]> (fs w))
         (trace w) (opened w ++ [filename]).
Proof.
  unfold ffmpeg_write_video.
  destruct (ffmpeg_write svc video fps codec) as [|e [partial|]].
  - intros H. apply bind_ok in H as (w1 & [] & Hopen & H).
    injection Hopen as <-. injection H as <-. simpl.
    by rewrite insert_insert_eq.
  - intros H. apply bind_ok in H as (w1 & [] & _ & H).
    by apply bind_ok in H as (w2 & [] & _ & H).
  - done.
Qed.

(** A call of [write_videofile] that returns has written the video and
    left no sound file behind. *)
Lemma write_videofile_ok (video : CompositeVideoClip) (fps : nat)
    (codec : string) (w w' : World) (u : unit) :
  write_videofile svc video output_path fps codec w = (w', inr u) →
  w' = mkWorld (<[output_path := Encoded video fps codec]>
                  (match audio video with
                   | Some _ => delete (temp_audiofile output_path) (fs w)
                   | None => fs w
                   end))
         (trace w) (opened w ++ [output_path]).
Proof.
  unfold write_videofile. destruct (audio video) as [sound|].
  - destruct (splitext (basename output_path)) as [name ext]. intros H.
    apply bind_ok in H as (w1 & [] & Hsound & H).
    apply write_audiofile_ok in Hsound as ->.
    apply bind_ok in H as (w2 & [] & Hvideo & H).
    apply ffmpeg_write_video_ok in Hvideo as ->.
    injection H as <-. simpl. f_equal.
    rewrite delete_insert_ne by apply temp_audiofile_not_output.
    by rewrite delete_insert_eq.
  - apply ffmpeg_write_video_ok.
Qed.

(** The video made of the segments of the loop has sound. *)
Lemma final_video_has_sound (data_list : list MediaPair) (w w1 : World)
    (video_clips : list VideoClip) (video : CompositeVideoClip) :
  get_final_video_loop svc data_list 0 [] w = (w1, inr video_clips) →
  concatenate_videoclips video_clips = inr video →
  ∃ sound, audio video = Some sound.
Proof.
  intros Hloop Hcat.
  apply get_final_video_loop_ok in Hloop as (segments & -> & Hlen & Hnth & _).
  simpl in Hcat. destruct segments as [|c cs]; [done|].
  destruct data_list as [|data rest]; [done|].
  destruct (Hnth 0 data eq_refl)
    as (clip & [= <-] & _ & _ & a & _ & _ & _ & _ & _ & Ha & _).
  destruct (concatenate_videoclips_audio _ _ _ _ Hcat Ha) as [tracks ->].
  by eexists.
Qed.

(** What a call of [get_final_video] that returns has done. *)
Lemma get_final_video_ok (data_list : list MediaPair) (w w' : World)
    (resp : FileResponse) :
  get_final_video svc data_list w = (w', inr resp) →
  ∃ video,
    resp = {| path := output_path; media_type := "video/mp4" |} ∧
    fs w' !! output_path = Some (Encoded video 24 "libx264") ∧
    length (clips video) = length data_list ∧
    (∀ i data, data_list !! i = Some data →
       ∃ clip, clips video !! i = Some clip ∧
               segment_of svc (length (trace w) + 2 * i) i data clip) ∧
    duration video = Zsum (clip_duration <$> clips video) ∧
    opened w' =
      opened w ++ scratch_names 0 (length data_list) ++ [output_path] ∧
    dom (fs w') =
      ({[output_path]} ∪ list_to_set (scratch_names 0 (length data_list))
       ∪ dom (fs w)) ∖ {[temp_audiofile output_path]}.
Proof.
  unfold get_final_video. intros H.
  apply bind_ok in H as (w1 & video_clips & Hloop & H).
  apply bind_ok in H as (w2 & video & Hcat & H).
  injection Hcat as <- Hcat.
  destruct (final_video_has_sound _ _ _ _ _ Hloop Hcat) as [sound Hsound].
  apply get_final_video_loop_ok in Hloop
    as (segments & -> & Hlen & Hnth & Hopened & Hdom).
  apply concatenate_videoclips_ok in Hcat as (Hclips & Hduration & _).
  apply bind_ok in H as (w3 & [] & Hwrite & H).
  injection H as <- <-.
  apply write_videofile_ok in Hwrite as ->. rewrite Hsound. simpl.
  exists video. simpl in Hclips. rewrite Hclips. repeat split; try done.
  - apply lookup_insert_eq.
  - rewrite Hopened. by rewrite <- app_assoc.
  - rewrite dom_insert_L, dom_delete_L, Hdom.
    pose proof temp_audiofile_not_output. set_solver.
Qed.

(** The files after a call of [get_final_video] that returns: the
    scratch files of every pair hold what was downloaded for it, the
    sound file made for the video is gone, and every other file but the
    video is as it was. *)
Lemma get_final_video_files (data_list : list MediaPair) (w w' : World)
    (resp : FileResponse) :
  get_final_video svc data_list w = (w', inr resp) →
  (∀ i data, data_list !! i = Some data →
     ∃ picture narration,
       requests_get svc (length (trace w) + 2 * i) (imageUrl data)
         = inr picture ∧
       requests_get svc (length (trace w) + 2 * i + 1) (audioUrl data)
         = inr narration ∧
       fs w' !! image_name i = Some (Raw (concat (chunks picture))) ∧
       fs w' !! audio_name i = Some (Raw (concat (chunks narration)))) ∧
  (∀ name, name ∉ scratch_names 0 (length data_list) →
           name ≠ output_path →
           name ≠ temp_audiofile output_path →
           fs w' !! name = fs w !! name) ∧
  trace w' = trace w ++ (data_list ≫= pair_calls).
Proof.
  unfold get_final_video. intros H.
  apply bind_ok in H as (w1 & video_clips & Hloop & H).
  pose proof (get_final_video_loop_trace svc _ _ _ _ _ _ Hloop) as Htrace.
  apply get_final_video_loop_files in Hloop as [Hframe Hheld].
  apply bind_ok in H as (w2 & video & Hcat & H).
  injection Hcat as <- _.
  apply bind_ok in H as (w3 & [] & Hwrite & H).
  injection H as <- _.
  apply write_videofile_ok in Hwrite as ->. simpl.
  assert (∀ name, scratch_path name →
            <[output_path := Encoded video 24 "libx264"]>
              (match audio video with
               | Some _ => delete (temp_audiofile output_path) (fs w1)
               | None => fs w1
               end) !! name = fs w1 !! name) as Hscratch.
  { intros name Hname.
    assert (name ≠ output_path).
    { intros ->. destruct Hname as (i & [Hi|Hi]); symmetry in Hi.
      - by apply image_name_output_path in Hi.
      - by apply audio_name_output_path in Hi. }
    assert (name ≠ temp_audiofile output_path).
    { intros ->. by apply temp_audiofile_scratch. }
    rewrite lookup_insert_ne by done.
    destruct (audio video); [|done]. by rewrite lookup_delete_ne. }
  split; [|split; [|done]].
  - intros i data Hi.
    destruct (Hheld i data Hi) as (p & n & Hp & Hn & Hpf & Hnf).
    exists p, n. repeat split; try done.
    + rewrite Hscratch; [done|]. exists i. by left.
    + rewrite Hscratch; [done|]. exists i. by right.
  - intros name Hname Hout Htemp. rewrite <- (Hframe name Hname).
    rewrite lookup_insert_ne by done.
    destruct (audio video); [|done]. by rewrite lookup_delete_ne.
Qed.

Lemma get_ai_video_run (payload : GenerateVideoPayload) (w w1 : World)
    (script : value) (items : list value) :
  get_script svc (prompt payload) w = (w1, inr script) →
  py_getitem script "script" = inr (VList items) →
  get_ai_video svc settings payload w =
  match get_ai_video_loop svc settings items [] w1 with
  | (w2, inr data_list) => get_final_video svc data_list w2
  | (w2, inl e) => (w2, inl e)
  end.
Proof.
  intros Hscript Hitems. unfold get_ai_video.
  rewrite bind_run, Hscript, bind_run. unfold lift at 1.
  rewrite Hitems, bind_run. unfold lift at 1. simpl.
  by rewrite bind_run.
Qed.

End Pipeline.

(** ** The claims on the video service *)

(** C1.  When the reply of the language model holds a script of [k]
    directives, the loop of [get_ai_video] either raises, and then the
    whole call raises the same exception, or yields exactly [k] media
    pairs, the [i]-th made from the [i]-th directive; it does yield
    them when the two requests of every directive are answered; and a
    call of [get_ai_video] that returns has written a video of exactly
    [k] segments, the [i]-th built from the [i]-th pair.  No outcome has
    fewer pairs or segments than the script has directives. *)
Theorem C1_pairs_and_segments_follow_the_script
    (svc : Services) (settings : Settings) (payload : GenerateVideoPayload)
    (w w1 : World) (script : value) (items : list value) :
  get_script svc (prompt payload) w = (w1, inr script) →
  py_getitem script "script" = inr (VList items) →
  (∀ w2 r,
     get_ai_video_loop svc settings items [] w1 = (w2, r) →
     match r with
     | inl e => get_ai_video svc settings payload w = (w2, inl e)
     | inr data_list =>
         length data_list = length items ∧
         ∀ i item, items !! i = Some item →
           ∃ mp, data_list !! i = Some mp ∧
                 made_from svc settings (length (trace w1) + 2 * i) item mp
     end) ∧
  ((∀ i item, items !! i = Some item →
      ∃ mp, made_from svc settings (length (trace w1) + 2 * i) item mp) →
   ∃ w2 data_list,
     get_ai_video_loop svc settings items [] w1 = (w2, inr data_list) ∧
     length data_list = length items) ∧
  (∀ w' resp,
     get_ai_video svc settings payload w = (w', inr resp) →
     ∃ data_list w2 video,
       get_ai_video_loop svc settings items [] w1 = (w2, inr data_list) ∧
       length data_list = length items ∧
       fs w' !! path resp = Some (Encoded video 24 "libx264") ∧
       length (clips video) = length items ∧
       ∀ i data, data_list !! i = Some data →
         ∃ clip, clips video !! i = Some clip ∧
                 segment_of svc (length (trace w2) + 2 * i) i data clip).
Proof.
  intros Hscript Hitems. split; [|split].
  - intros w2 [e|data_list] Hloop.
    + by rewrite (get_ai_video_run _ _ _ _ _ _ _ Hscript Hitems), Hloop.
    + apply get_ai_video_loop_ok in Hloop as (pairs & -> & Hlen & Hnth & _).
      done.
  - intros Hanswered.
    destruct (get_ai_video_loop_complete svc settings items [] w1 Hanswered)
      as (w2 & pairs & Hloop & Hlen).
    by exists w2, pairs.
  - intros w' resp Hrun.
    rewrite (get_ai_video_run _ _ _ _ _ _ _ Hscript Hitems) in Hrun.
    destruct (get_ai_video_loop svc settings items [] w1)
      as [w2 [e|data_list]] eqn:Hloop; [done|].
    apply get_ai_video_loop_ok in Hloop as (pairs & -> & Hlen & _).
    apply get_final_video_ok in Hrun
      as (video & -> & Hfile & Hclips & Hnth & _).
    exists pairs, w2, video. simpl in *. repeat split; try done.
    congruence.
Qed.

Lemma C1_pairs_and_segments_follow_the_script_witness :
  ∃ w' resp video,
    get_ai_video studio keys {| prompt := "Documentary on penguins" |}
      empty_world = (w', inr resp) ∧
    fs w' !! path resp = Some (Encoded video 24 "libx264") ∧
    length (clips video) = 2.
Proof.
  destruct (C1_pairs_and_segments_follow_the_script studio keys
              {| prompt := "Documentary on penguins" |} empty_world
              (get_script studio "Documentary on penguins" empty_world).1
              (script_value penguins) (object_value <$> penguins))
    as (_ & _ & H); [by vm_compute..|].
  destruct (get_ai_video studio keys {| prompt := "Documentary on penguins" |}
              empty_world) as [w' [e|resp]] eqn:Hrun.
  - vm_compute in Hrun. discriminate Hrun.
  - destruct (H w' resp eq_refl) as (data_list & w2 & video & _ & _ & Hfile & Hlen & _).
    exists w', resp, video. by repeat split.
Defined.

Lemma Zsum_fmap_ext {A} (f g : A → Z) (l : list A) :
  (∀ i x, l !! i = Some x → f x = g x) → Zsum (f <$> l) = Zsum (g <$> l).
Proof.
  induction l as [|x l IH]; intros H; [done|].
  unfold Zsum in *. simpl. rewrite (H 0 x eq_refl). f_equal.
  apply IH. intros i y Hi. apply (H (S i) y Hi).
Qed.

(** C2.  Narrations have a length that is not negative.  Then a call of
    [get_final_video] that returns has written a video with one segment
    per media pair; the [i]-th segment carries the sound track read from
    the file [audio_<i>.wav], which holds the narration downloaded from
    the audio URL of the [i]-th pair, and lasts the whole seconds of that
    narration plus one; and the video lasts the sum of these. *)
Theorem C2_segments_last_floor_plus_one
    (svc : Services) (data_list : list MediaPair) (w w' : World)
    (resp : FileResponse) :
  (∀ f d, ffmpeg_parse_duration svc f = inr d → (0 <= d)%Q) →
  get_final_video svc data_list w = (w', inr resp) →
  ∃ video,
    fs w' !! path resp = Some (Encoded video 24 "libx264") ∧
    length (clips video) = length data_list ∧
    (∀ i data, data_list !! i = Some data →
       ∃ clip a narration,
         clips video !! i = Some clip ∧
         clip_audio clip = Some a ∧
         audio_filename a = audio_name i ∧
         requests_get svc (length (trace w) + 2 * i + 1) (audioUrl data)
           = inr narration ∧
         fs w' !! audio_name i = Some (Raw (concat (chunks narration))) ∧
         ffmpeg_parse_duration svc (Raw (concat (chunks narration)))
           = inr (audio_duration a) ∧
         clip_duration clip = (Qfloor (audio_duration a) + 1)%Z) ∧
    duration video = Zsum (padded_floor <$> clips video).
Proof.
  intros Hpos Hrun.
  pose proof (get_final_video_files _ _ _ _ _ Hrun) as (Hheld & _).
  apply get_final_video_ok in Hrun
    as (video & -> & Hfile & Hclips & Hnth & Hduration & _).
  exists video. repeat split; try done.
  - intros i data Hi.
    destruct (Hnth i data Hi)
      as (clip & Hclip & picture & narration & a & _ & Hget & _ & Hd & Hname & Ha & Hlen).
    destruct (Hheld i data Hi) as (picture' & narration' & _ & Hget' & _ & Hsound).
    rewrite Nat.add_1_r, Hget in Hget'. injection Hget' as <-.
    exists clip, a, narration. repeat split; try done.
    + by rewrite Nat.add_1_r.
    + by rewrite Hlen, (py_int_floor _ (Hpos _ _ Hd)).
  - rewrite Hduration. apply Zsum_fmap_ext. intros i clip Hclip.
    destruct (lookup_lt_is_Some_2 data_list i) as [data Hi].
    { rewrite <- Hclips. by apply lookup_lt_Some in Hclip. }
    destruct (Hnth i data Hi)
      as (clip' & Hclip' & picture & narration & a & _ & _ & _ & Hd & _ & Ha & Hlen).
    assert (clip' = clip) as -> by congruence.
    unfold padded_floor. by rewrite Ha, Hlen, (py_int_floor _ (Hpos _ _ Hd)).
Qed.

Lemma C2_segments_last_floor_plus_one_witness :
  ∃ video clip a,
    fs (get_final_video studio
          [ {| imageUrl := VStr "https://img.example/1.png";
               audioUrl := VStr "https://murf.example/a.wav" |} ]
          empty_world).1 !! output_path
      = Some (Encoded video 24 "libx264") ∧
    clips video = [clip] ∧
    clip_audio clip = Some a ∧
    audio_filename a = "audio_0.wav" ∧
    duration video = 2%Z.
Proof.
  destruct (C2_segments_last_floor_plus_one studio
              [ {| imageUrl := VStr "https://img.example/1.png";
                   audioUrl := VStr "https://murf.example/a.wav" |} ]
              empty_world
              (get_final_video studio
                 [ {| imageUrl := VStr "https://img.example/1.png";
                      audioUrl := VStr "https://murf.example/a.wav" |} ]
                 empty_world).1
              {| path := output_path; media_type := "video/mp4" |})
    as (video & Hfile & Hlen & Hnth & Hduration).
  - intros [content|video fps codec|sound codec] d; simpl; [|done..].
    intros [= <-]. unfold Qle. simpl. lia.
  - by vm_compute.
  - destruct (Hnth 0 _ eq_refl)
      as (clip & a & narration & Hclip & Ha & Hname & _).
    exists video, clip, a.
    split; [exact Hfile|]. split; [|split; [exact Ha|split; [exact Hname|]]].
    + destruct (clips video) as [|c [|c' cs]]; try discriminate Hlen.
      by injection Hclip as ->.
    + vm_compute in Hfile. injection Hfile as <-. by vm_compute.
Defined.

Lemma posted_voice_ids_app (l1 l2 : list Call) :
  posted_voice_ids (l1 ++ l2) = posted_voice_ids l1 ++ posted_voice_ids l2.
Proof. unfold posted_voice_ids. apply bind_app. Qed.

Lemma posted_voice_ids_item (svc : Services) (settings : Settings) (t : nat)
    (item : value) (mp : MediaPair) :
  made_from svc settings t item mp →
  posted_voice_ids (item_calls settings item) = voice_id_of item.
Proof.
  intros (p & tx & vo & Hp & Htx & Hvo & _).
  unfold item_calls, voice_id_of. by rewrite Hp, Htx, Hvo.
Qed.

(** C4, as the code has it.  The voiceIds posted to the speech service
    by a run of the loop of [get_ai_video] that returns are the voiceIds
    of the directives themselves, one per directive, in the order of the
    script: none is checked, none is replaced. *)
Theorem C4_voice_ids_are_sent_as_written
    (svc : Services) (settings : Settings) (items : list value)
    (w w' : World) (data_list : list MediaPair) :
  get_ai_video_loop svc settings items [] w = (w', inr data_list) →
  posted_voice_ids (trace w')
  = posted_voice_ids (trace w) ++ (items ≫= voice_id_of).
Proof.
  intros Hloop.
  apply get_ai_video_loop_ok in Hloop as (pairs & _ & _ & Hnth & -> & _).
  simpl. rewrite posted_voice_ids_app. f_equal.
  revert Hnth. generalize (length (trace w)). clear w. intros t Hnth.
  revert pairs t Hnth. induction items as [|item items IH]; intros pairs t Hnth.
  - done.
  - change (posted_voice_ids (item_calls settings item ++ (items ≫= item_calls settings))
            = voice_id_of item ++ (items ≫= voice_id_of)).
    rewrite posted_voice_ids_app.
    destruct (Hnth 0 item eq_refl) as (mp & Hmp & Hmade).
    rewrite (posted_voice_ids_item _ _ _ _ _ Hmade). f_equal.
    apply (IH (drop 1 pairs) (t + 2)).
    intros i item' Hi. destruct (Hnth (S i) item' Hi) as (mp' & Hmp' & Hmade').
    exists mp'. split.
    + by rewrite lookup_drop.
    + by replace (t + 2 + 2 * i) with (t + 2 * S i) by lia.
Qed.

Lemma C4_voice_ids_are_sent_as_written_witness :
  posted_voice_ids
    (trace (get_ai_video_loop studio keys (object_value <$> penguins) []
              empty_world).1)
  = [VStr "en-UK-gabriel"; VStr "en-UK-gabriel"].
Proof.
  destruct (get_ai_video_loop studio keys (object_value <$> penguins) []
              empty_world) as [w' [e|data_list]] eqn:Hloop.
  - vm_compute in Hloop. discriminate Hloop.
  - simpl.
    by rewrite (C4_voice_ids_are_sent_as_written _ _ _ _ _ _ Hloop).
Defined.

(** C4 as stated fails: a script with two voices is assembled as it is;
    the call returns a video and both voiceIds reach the speech
    service. *)
Lemma C4_counterexample :
  (get_ai_video studio keys {| prompt := "Ad for shoes" |} empty_world).2
  = inr {| path := output_path; media_type := "video/mp4" |} ∧
  posted_voice_ids
    (trace (get_ai_video studio keys {| prompt := "Ad for shoes" |}
              empty_world).1)
  = [VStr "en-UK-reggie"; VStr "en-US-caleb"].
Proof. split; by vm_compute. Qed.

(** C5, as the code has it.  The script has a directive [item] at index
    [i]; the directives before it have been turned into media, and the
    turn of [item] raises [e], in the picture request, the speech request
    or a field lookup.  Then the whole call raises [e] itself, in the
    world the failed turn left; all [i] earlier directives had been
    processed; and no file has been created or changed, so no video
    exists. *)
Theorem C5_failed_directive_aborts_the_call
    (svc : Services) (settings : Settings) (payload : GenerateVideoPayload)
    (w w1 w2 w3 : World) (script item : value) (items : list value)
    (i : nat) (processed : list MediaPair) (e : exn) :
  get_script svc (prompt payload) w = (w1, inr script) →
  py_getitem script "script" = inr (VList items) →
  items !! i = Some item →
  get_ai_video_loop svc settings (take i items) [] w1 = (w2, inr processed) →
  directive_media svc settings item w2 = (w3, inl e) →
  get_ai_video svc settings payload w = (w3, inl e) ∧
  length processed = i ∧
  fs w3 = fs w ∧
  opened w3 = opened w.
Proof.
  intros Hscript Hitems Hitem Hbefore Hfail.
  rewrite (get_ai_video_run _ _ _ _ _ _ _ Hscript Hitems).
  rewrite <- (take_drop_middle items i item Hitem) at 1.
  rewrite get_ai_video_loop_app, Hbefore, get_ai_video_loop_cons, Hfail.
  split; [done|].
  apply get_ai_video_loop_ok in Hbefore as (pairs & -> & Hlen & _ & -> & _).
  destruct (quiet_get_script svc (prompt payload) w) as [Hfs1 Hop1].
  rewrite Hscript in Hfs1, Hop1. simpl in Hfs1, Hop1.
  destruct (quiet_directive_media svc settings item
              (mkWorld (fs w1) (trace w1 ++ (take i items ≫= item_calls settings))
                 (opened w1))) as [Hfs3 Hop3].
  rewrite Hfail in Hfs3, Hop3. simpl in Hfs3, Hop3.
  repeat split; try congruence.
  simpl. rewrite Hlen, length_take. apply lookup_lt_Some in Hitem. lia.
Qed.

Lemma C5_failed_directive_aborts_the_call_witness :
  (get_ai_video studio keys {| prompt := "Refused second" |} empty_world).2
  = inl (ServiceError "openai" "content policy violation").
Proof.
  destruct (get_ai_video_loop studio keys
              (take 1 (object_value <$> refused_second)) []
              (get_script studio "Refused second" empty_world).1)
    as [w2 [e|processed]] eqn:Hbefore.
  { vm_compute in Hbefore. discriminate Hbefore. }
  destruct (C5_failed_directive_aborts_the_call studio keys
              {| prompt := "Refused second" |} empty_world
              (get_script studio "Refused second" empty_world).1
              w2
              (directive_media studio keys
                 (object_value (directive "Two." "forbidden" "en-US-miles")) w2).1
              (script_value refused_second)
              (object_value (directive "Two." "forbidden" "en-US-miles"))
              (object_value <$> refused_second) 1 processed
              (ServiceError "openai" "content policy violation"))
    as [Hrun _]; [by vm_compute..|done| |by rewrite Hrun].
  vm_compute in Hbefore. injection Hbefore as <- _. by vm_compute.
Defined.

(** C5 as stated fails: two calls fail at different directives, the first
    at index 0 (no narration was asked for), the second at index 1 (one
    was), and both raise the same exception, which names no index. *)
Lemma C5_counterexample :
  (get_ai_video studio keys {| prompt := "Refused first" |} empty_world).2
  = inl (ServiceError "openai" "content policy violation") ∧
  (get_ai_video studio keys {| prompt := "Refused second" |} empty_world).2
  = inl (ServiceError "openai" "content policy violation") ∧
  posted_voice_ids
    (trace (get_ai_video studio keys {| prompt := "Refused first" |}
              empty_world).1) = [] ∧
  posted_voice_ids
    (trace (get_ai_video studio keys {| prompt := "Refused second" |}
              empty_world).1) = [VStr "en-US-miles"].
Proof. repeat split; by vm_compute. Qed.

(** C6, as the code has it.  The language model answers with the text
    [content].  Then [get_script] sends exactly one request and returns
    what [json.loads] makes of the text: its exception when the text is
    not JSON, the parsed value, whatever its shape, otherwise.  A text
    that is not JSON, and a value without a [script] member, make
    [get_ai_video] raise before any other request is sent. *)
Theorem C6_get_script_only_parses
    (svc : Services) (settings : Settings) (payload : GenerateVideoPayload)
    (w : World) (content : string) (others : list (option string)) :
  chat_completions_create svc (length (trace w))
    (script_request (prompt payload)) = inr (Some content :: others) →
  let w1 := mkWorld (fs w)
              (trace w ++ [CallChat (script_request (prompt payload))])
              (opened w) in
  get_script svc (prompt payload) w = (w1, json_loads svc content) ∧
  (∀ e, json_loads svc content = inl e →
        get_ai_video svc settings payload w = (w1, inl e)) ∧
  (∀ script e,
     json_loads svc content = inr script →
     py_getitem script "script" = inl e →
     get_ai_video svc settings payload w = (w1, inl e)).
Proof.
  intros Hreply w1.
  assert (get_script svc (prompt payload) w = (w1, json_loads svc content))
    as Hscript.
  { unfold get_script. rewrite bind_run. unfold request at 1.
    rewrite Hreply. by rewrite bind_run. }
  split; [done|]. split.
  - intros e He. unfold get_ai_video. by rewrite bind_run, Hscript, He.
  - intros script e Hparsed He. unfold get_ai_video.
    rewrite bind_run, Hscript, Hparsed, bind_run. unfold lift at 1.
    by rewrite He.
Qed.

Lemma C6_get_script_only_parses_witness :
  get_ai_video studio keys {| prompt := "Tell me a joke" |} empty_world
  = (mkWorld ∅ [CallChat (script_request "Tell me a joke")] [],
     inl (KeyError "script")).
Proof.
  destruct (C6_get_script_only_parses studio keys
              {| prompt := "Tell me a joke" |} empty_world "{}" [])
    as (_ & _ & H); [by vm_compute|].
  apply (H (VDict [])); by vm_compute.
Defined.

(** C6 as stated fails: a reply whose only directive has neither text nor
    voiceId is returned by [get_script] as it is, and [get_ai_video] asks
    for a picture before the missing text is noticed. *)
Lemma C6_counterexample :
  (get_script studio "No narration" empty_world).2
  = inr (VDict [("script", VList [VDict [("imagePrompt", VStr "a cat")]])]) ∧
  get_ai_video studio keys {| prompt := "No narration" |} empty_world
  = (mkWorld ∅ [CallChat (script_request "No narration");
                CallImage (image_request (VStr "a cat"))] [],
     inl (KeyError "text")).
Proof. split; by vm_compute. Qed.

(** C7, as the code has it.  Scratch files are not cleaned up.  Whether
    a call of [get_ai_video] returns or raises, every scratch file (a
    file named [image_<i>.png] or [audio_<i>.wav]) that was in the
    working directory before the call, and every scratch file the call
    has opened for writing, is in the working directory after the call;
    and after a call of [get_final_video] that returns, the picture and
    the narration of every media pair are there, holding what was
    downloaded for the pair, next to the video. *)
Theorem C7_scratch_files_are_kept
    (svc : Services) (settings : Settings) (payload : GenerateVideoPayload)
    (w : World) :
  (∃ paths,
     opened (get_ai_video svc settings payload w).1 = opened w ++ paths ∧
     ∀ name, scratch_path name →
       name ∈ dom (fs w) ∨ name ∈ paths →
       name ∈ dom (fs (get_ai_video svc settings payload w).1)) ∧
  ∀ data_list w1 w' resp,
    get_final_video svc data_list w1 = (w', inr resp) →
    path resp ∈ dom (fs w') ∧
    ∀ i data, data_list !! i = Some data →
      ∃ picture narration,
        requests_get svc (length (trace w1) + 2 * i) (imageUrl data)
          = inr picture ∧
        requests_get svc (length (trace w1) + 2 * i + 1) (audioUrl data)
          = inr narration ∧
        fs w' !! image_name i = Some (Raw (concat (chunks picture))) ∧
        fs w' !! audio_name i = Some (Raw (concat (chunks narration))).
Proof.
  split; [apply keeps_scratch_get_ai_video|].
  intros data_list w1 w' resp Hrun.
  pose proof (get_final_video_files _ _ _ _ _ Hrun) as (Hheld & _).
  apply get_final_video_ok in Hrun as (video & -> & Hfile & _).
  split; [|done]. simpl. apply elem_of_dom. by eexists.
Qed.

Lemma C7_scratch_files_are_kept_witness :
  fs (get_final_video studio
        [ {| imageUrl := VStr "https://img.example/1.png";
             audioUrl := VStr "https://murf.example/a.wav" |} ]
        empty_world).1 !! "audio_0.wav"
  = Some (Raw [Byte.x01; Byte.x02; Byte.x03]).
Proof.
  destruct (C7_scratch_files_are_kept studio keys
              {| prompt := "Documentary on penguins" |} empty_world)
    as [_ H].
  destruct (H [ {| imageUrl := VStr "https://img.example/1.png";
                   audioUrl := VStr "https://murf.example/a.wav" |} ]
              empty_world
              (get_final_video studio
                 [ {| imageUrl := VStr "https://img.example/1.png";
                      audioUrl := VStr "https://murf.example/a.wav" |} ]
                 empty_world).1
              {| path := output_path; media_type := "video/mp4" |})
    as (_ & Hkept); [by vm_compute|].
  destruct (Hkept 0 _ eq_refl) as (picture & narration & _ & Hget & _ & Hfile).
  injection Hget as <-. exact Hfile.
Defined.

(** C7 as stated fails: after a call that returns, the four downloaded
    files are still in the working directory. *)
Lemma C7_counterexample :
  let kept := fs (get_ai_video studio keys
                    {| prompt := "Documentary on penguins" |} empty_world).1 in
  kept !! "image_0.png" = Some (Raw [Byte.x01; Byte.x02; Byte.x03]) ∧
  kept !! "audio_0.wav" = Some (Raw [Byte.x01; Byte.x02; Byte.x03]) ∧
  kept !! "image_1.png" = Some (Raw [Byte.x01; Byte.x02; Byte.x03]) ∧
  kept !! "audio_1.wav" = Some (Raw [Byte.x01; Byte.x02; Byte.x03]).
Proof. repeat split; by vm_compute. Qed.

(** C9, as the code has it.  A call of [get_final_video] over [k] media
    pairs that returns has named for writing, in this order, the files
    [image_0.png], [audio_0.wav], ..., [image_(k-1).png],
    [audio_(k-1).wav] and [output_video.mp4] of the working directory,
    whatever the call; these names are pairwise distinct.  (The sound
    file that [write_videofile] makes and removes on the way is named by
    moviepy, after the video.) *)
Theorem C9_scratch_names_depend_on_the_index_only
    (svc : Services) (data_list : list MediaPair) (w w' : World)
    (resp : FileResponse) :
  get_final_video svc data_list w = (w', inr resp) →
  opened w' = opened w ++ scratch_names 0 (length data_list) ++ [output_path] ∧
  path resp = output_path ∧
  NoDup (scratch_names 0 (length data_list) ++ [output_path]).
Proof.
  intros Hrun.
  apply get_final_video_ok in Hrun as (video & -> & _ & _ & _ & _ & -> & _).
  repeat split. apply NoDup_scratch_names.
Qed.

Lemma C9_scratch_names_depend_on_the_index_only_witness :
  opened (get_final_video studio
            [ {| imageUrl := VStr "https://img.example/1.png";
                 audioUrl := VStr "https://murf.example/a.wav" |} ]
            empty_world).1
  = ["image_0.png"; "audio_0.wav"; "output_video.mp4"].
Proof.
  destruct (C9_scratch_names_depend_on_the_index_only studio
              [ {| imageUrl := VStr "https://img.example/1.png";
                   audioUrl := VStr "https://murf.example/a.wav" |} ]
              empty_world
              (get_final_video studio
                 [ {| imageUrl := VStr "https://img.example/1.png";
                      audioUrl := VStr "https://murf.example/a.wav" |} ]
                 empty_world).1
              {| path := output_path; media_type := "video/mp4" |})
    as (Hopened & _ & _); [by vm_compute|].
  rewrite Hopened. by vm_compute.
Defined.

(** C9 as stated fails: two calls on different prompts, the second run
    in the directory the first one left, open the very same files. *)
Lemma C9_counterexample :
  let first := get_ai_video studio keys
                 {| prompt := "Documentary on penguins" |} empty_world in
  let second := get_ai_video studio keys {| prompt := "Ad for shoes" |}
                  (mkWorld (fs first.1) [] []) in
  opened first.1
  = ["image_0.png"; "audio_0.wav"; "image_1.png"; "audio_1.wav";
     "output_video.mp4"] ∧
  opened second.1 = opened first.1.
Proof. split; by vm_compute. Qed.

End VideoProofs.

(** * Part IV: properties of the chatbot *)

Module ChatProofs.

Import Chat.

Local Open Scope list_scope.

(** ** The conversation *)

Lemma push_queries_snoc (qs : list GPTQuery) (q : GPTQuery) :
  push_queries (qs ++ [q]) =
  push_queries qs ++ [ {| msg_role := user; content := Some (question q) |};
                       {| msg_role := assistant; content := gptResponse q |} ].
Proof. unfold push_queries. by rewrite foldl_app. Qed.

(** ** Blank prompts *)

Lemma trim_start_white (s : js_string) : white s → trim_start s = [].
Proof.
  induction 1 as [|c s Hc _ IH]; [done|]. simpl. by rewrite Hc.
Qed.

Lemma trim_white (s : js_string) : white s → trim s = [].
Proof. intros H. unfold trim. by rewrite (trim_start_white s H). Qed.

Lemma is_blank_white (s : js_string) : white s → is_blank s = true.
Proof.
  intros H. unfold is_blank. apply orb_true_iff. right.
  apply bool_decide_eq_true_2. by apply trim_white.
Qed.

(** ** The claims on the chatbot *)

(** C3.  The prompt is not blank, the completion request is answered
    with at least one choice, and the speech request is answered.  Then
    the call of [handlePromptSubmit] returns; the conversation has grown
    by the user's turn and the assistant's turn, after the turns it had,
    which are unchanged; and exactly one narration reference, the one of
    the answer, has been added after the ones recorded before. *)
Theorem C3_submit_appends_one_exchange
    (env : Env) (svc : Services) (s : Session) (gptRes : ChatCompletion)
    (choice : Choice) (others : list Choice) (speech : SpeechResponse) :
  is_blank (prompt (ui s)) = false →
  createChatCompletion svc (length (calls s)) (completion_request (ui s))
    = inr gptRes →
  choices gptRes = choice :: others →
  axios_post svc (S (length (calls s))) speech_url (speech_input choice)
    (speech_headers env) = inr speech →
  ∃ s',
    run svc (handlePromptSubmit env (ui s)) s = (s', inr tt) ∧
    conversation (ui s') =
      conversation (ui s)
      ++ [ {| msg_role := user; content := Some (prompt (ui s)) |};
           {| msg_role := assistant; content := reply_content choice |} ] ∧
    length (conversation (ui s')) = length (conversation (ui s)) + 2 ∧
    gptQueries (ui s') = gptQueries (ui s) ++ [exchange (ui s) choice speech] ∧
    narrations (ui s') = narrations (ui s) ++ [audioFile speech] ∧
    status (ui s') = IDLE.
Proof.
  intros Hblank Hgpt Hchoices Hspeech.
  eexists. split.
  - unfold handlePromptSubmit, generateChatGPTResponse, generateSpeechWithKey.
    cbv zeta. rewrite Hblank. cbn [run ui calls].
    unfold completion_request in Hgpt. rewrite Hgpt, Hchoices.
    cbn [run ui calls]. rewrite length_app, Nat.add_1_r.
    unfold speech_url, speech_input, speech_headers in Hspeech.
    rewrite Hspeech. cbn [run ui calls]. reflexivity.
  - unfold conversation, narrations. cbn.
    rewrite push_queries_snoc, fmap_app, !length_app. cbn.
    repeat split; done.
Qed.

Lemma C3_submit_appends_one_exchange_witness :
  length (conversation
            (ui (run parrot
                   (handlePromptSubmit test_env
                      (ui (asking "Which is the largest planet?")))
                   (asking "Which is the largest planet?")).1)) = 2.
Proof.
  destruct (C3_submit_appends_one_exchange test_env parrot
              (asking "Which is the largest planet?") jupiter
              {| message :=
                   Some {| msg_role := assistant;
                           content := Some (js "Jupiter is the largest planet") |} |}
              [] {| audioFile := Some (js "https://murf.example/1.mp3") |})
    as (s' & Hrun & _ & Hlen & _); [by vm_compute..|].
  rewrite Hrun. cbn [fst]. by rewrite Hlen.
Defined.

(** C10.  On a prompt that is empty or made of white space only, a call
    of [handlePromptSubmit] returns at once: no request is sent and
    nothing in the component changes, neither when the handler runs alone
    nor on the page, whatever is in flight. *)
Theorem C10_blank_prompt_is_ignored
    (env : Env) (svc : Services) (s : Session) (pg : Page) :
  (white (prompt (ui s)) →
   run svc (handlePromptSubmit env (ui s)) s = (s, inr tt)) ∧
  (white (prompt (rendered pg)) →
   dispatch (handlePromptSubmit env (rendered pg)) (in_flight pg) pg = pg).
Proof.
  split; intros H%is_blank_white; unfold handlePromptSubmit; rewrite H.
  - done.
  - unfold dispatch. cbn. rewrite app_nil_r. by destruct pg.
Qed.

Lemma C10_blank_prompt_is_ignored_witness :
  run parrot
    (handlePromptSubmit test_env (setPrompt [32; 9; 10; 160]%N initial_state))
    {| ui := setPrompt [32; 9; 10; 160]%N initial_state; calls := [] |}
  = ({| ui := setPrompt [32; 9; 10; 160]%N initial_state; calls := [] |},
     inr tt).
Proof.
  apply (C10_blank_prompt_is_ignored test_env parrot
           {| ui := setPrompt [32; 9; 10; 160]%N initial_state; calls := [] |}
           initial_page).
  repeat constructor.
Defined.

(** ** One submission at a time *)

(** Where a call of [handlePromptSubmit] waits, and what it does when it
    is answered: after the completion it ends or waits for the speech,
    without touching the component; after the speech it appends one
    exchange to the history of its render and enables the form. *)
Lemma stops_at_handlePromptSubmit (env : Env) (render : State) (p : Pending) :
  is_blank (prompt render) = false →
  stops_at (handlePromptSubmit env render) p →
  match p with
  | PendingCompletion k =>
      ∀ r st log,
        ∃ log', advance (k r) st log = (st, log', None) ∨
                ∃ k', advance (k r) st log = (st, log', Some (PendingSpeech k')) ∧
                      stops_at (handlePromptSubmit env render) (PendingSpeech k')
  | PendingSpeech k =>
      ∀ r st log,
        ∃ q, advance (k r) st log =
             (setStatus IDLE
                (setPrompt [] (setGptQueries (gptQueries render ++ [q]) st)),
              log, None)
  end.
Proof.
  intros Hblank. unfold handlePromptSubmit. rewrite Hblank.
  unfold generateChatGPTResponse, generateSpeechWithKey. cbn [stops_at].
  intros [-> | [r0 H]].
  - intros r st log. destruct (choices r) as [|choice others] eqn:Hchoices;
      cbn [advance]; eexists.
    + by left.
    + right. eexists. split; [done|].
      right. exists r. rewrite Hchoices. by left.
  - destruct (choices r0) as [|choice others]; cbn [stops_at] in H; [done|].
    destruct H as [-> | [r1 []]].
    intros r st log. cbn [advance]. by eexists.
Qed.

Lemma dispatch_ended (a : Async) (others : list Pending) (pg : Page)
    (st : State) (log : list Call) :
  advance a (latest pg) (sent pg) = (st, log, None) →
  dispatch a others pg =
  {| rendered := rendered pg; latest := st; in_flight := others; sent := log |}.
Proof. intros H. unfold dispatch. rewrite H. simpl. by rewrite app_nil_r. Qed.

Lemma dispatch_waiting (a : Async) (others : list Pending) (pg : Page)
    (st : State) (log : list Call) (p : Pending) :
  advance a (latest pg) (sent pg) = (st, log, Some p) →
  dispatch a others pg =
  {| rendered := rendered pg; latest := st; in_flight := others ++ [p];
     sent := log |}.
Proof. intros H. unfold dispatch. by rewrite H. Qed.

Lemma dispatch_rendered (a : Async) (others : list Pending) (pg : Page) :
  rendered (dispatch a others pg) = rendered pg.
Proof. unfold dispatch. by destruct (advance a (latest pg) (sent pg)) as [[st log] p]. Qed.

(** The handlers of the cards and of the audio element change the
    selection and nothing else. *)
Lemma dispatch_handleAudioPlay (render : State) (id : nat)
    (others : list Pending) (pg : Page) :
  ∃ selection,
    (selection = None ∨ selection = Some id) ∧
    dispatch (handleAudioPlay render id) others pg =
    {| rendered := rendered pg;
       latest := setCurrentAudioId selection (latest pg);
       in_flight := others; sent := sent pg |}.
Proof.
  unfold handleAudioPlay. case_decide; eexists; (split; [|by apply dispatch_ended]);
    auto.
Qed.

Lemma one_submit_idle (env : Env) (pg : Page) :
  one_submit env pg → status (latest pg) ≠ LOADING → in_flight pg = [].
Proof. intros [H|(p & _ & Hloading & _)] Hidle; [done|]. by destruct Hidle. Qed.

Lemma one_submit_single (env : Env) (pg : Page) (i : nat) (p : Pending) :
  one_submit env pg →
  in_flight pg !! i = Some p →
  i = 0 ∧ in_flight pg = [p] ∧ submit_in_flight env pg p.
Proof.
  intros [H|(p' & H & Hp')] Hi; rewrite H in Hi.
  - by rewrite lookup_nil in Hi.
  - destruct i as [|i]; [|by rewrite lookup_cons, lookup_nil in Hi].
    injection Hi as <-. done.
Qed.

(** The invariant speaks of the handlers in flight and of the status and
    the history React holds. *)
Lemma one_submit_ext (env : Env) (pg pg' : Page) :
  in_flight pg' = in_flight pg →
  status (latest pg') = status (latest pg) →
  gptQueries (latest pg') = gptQueries (latest pg) →
  one_submit env pg → one_submit env pg'.
Proof.
  intros Hflight Hstatus Hqueries [H|(p & H & Hloading & render & Hq & Hp)].
  - left. congruence.
  - right. exists p. split; [congruence|]. split; [congruence|].
    exists render. split; [congruence|done].
Qed.

(** When the send button is pressed on fresh renders only, every event
    keeps at most one submission in flight, and changes the history
    React holds only by appending to it. *)
Lemma step_one_submit (env : Env) (pg pg' : Page) (ev : Event) :
  one_submit env pg →
  send_on_fresh_render pg ev →
  step env pg ev pg' →
  one_submit env pg' ∧
  gptQueries (latest pg) `prefix_of` gptQueries (latest pg').
Proof.
  intros Hinv Hfresh Hstep. destruct Hstep
    as [pg value Henabled | pg Henabled | pg id Hid | pg | pg view Hview
       | pg i k r Hsplit | pg i k r Hsplit | pg i p Hsplit].
  - rewrite (dispatch_ended _ _ _ (setPrompt value (latest pg)) (sent pg))
      by done.
    split; [by apply (one_submit_ext env pg)|done].
  - specialize (Hfresh eq_refl). unfold form_enabled in Henabled.
    rewrite Hfresh in *.
    rewrite (one_submit_idle env pg Hinv Henabled).
    unfold handlePromptSubmit.
    destruct (is_blank (prompt (latest pg))) eqn:Hblank.
    + unfold dispatch. cbn. split; [by left|done].
    + unfold dispatch. cbn. split; [|done].
      right. eexists. split; [done|]. split; [done|].
      exists (latest pg). split; [done|]. split; [done|].
      unfold handlePromptSubmit. rewrite Hblank. by left.
  - destruct (dispatch_handleAudioPlay (rendered pg) id (in_flight pg) pg)
      as (selection & _ & ->).
    split; [by apply (one_submit_ext env pg)|done].
  - rewrite (dispatch_ended _ _ _ (setCurrentAudioId None (latest pg)) (sent pg))
      by done.
    split; [by apply (one_submit_ext env pg)|done].
  - split; [by apply (one_submit_ext env pg)|done].
  - destruct (one_submit_single env pg _ _ Hinv Hsplit)
      as (-> & Hone & Hloading & render & Hqueries & Hblank & Hstops).
    rewrite Hone. cbn [delete list_delete].
    pose proof (stops_at_handlePromptSubmit env render _ Hblank Hstops
                  r (latest pg) (sent pg)) as [log' [H|(k' & H & Hstops')]].
    + rewrite (dispatch_ended _ _ _ _ _ H). split; [by left|done].
    + rewrite (dispatch_waiting _ _ _ _ _ _ H). split; [|done].
      right. eexists. split; [done|]. split; [done|]. by exists render.
  - destruct (one_submit_single env pg _ _ Hinv Hsplit)
      as (-> & Hone & Hloading & render & Hqueries & Hblank & Hstops).
    rewrite Hone. cbn [delete list_delete].
    pose proof (stops_at_handlePromptSubmit env render _ Hblank Hstops
                  r (latest pg) (sent pg)) as [q H].
    rewrite (dispatch_ended _ _ _ _ _ H). split; [by left|].
    cbn. rewrite Hqueries. by apply prefix_app_r.
  - destruct (one_submit_single env pg _ _ Hinv Hsplit) as (-> & Hone & _).
    rewrite Hone. split; [by left|done].
Qed.

Lemma reachable_one_submit (env : Env) (pg : Page) :
  reachable env send_on_fresh_render pg → one_submit env pg.
Proof.
  induction 1 as [|pg ev pg' _ IH Hfresh Hstep]; [by left|].
  by apply (step_one_submit env pg pg' ev).
Qed.

(** ** Sequences of events *)

(** An event that [happen] lets happen is an event of the page. *)
Lemma happen_step (env : Env) (pg pg' : Page) (ev : Event) :
  happen env pg ev = Some pg' → step env pg ev pg'.
Proof.
  destruct ev as [value| |id| | |i r|i r|i]; simpl.
  - case_decide; [done|]. intros [= <-]. by apply step_change.
  - case_decide; [done|]. intros [= <-]. by apply step_submit.
  - case_decide; [|done]. intros [= <-]. by apply step_audio_play.
  - intros [= <-]. apply step_audio_end.
  - destruct (GPTForm (latest pg)) as [e|view] eqn:Hview; [done|].
    intros [= <-]. by apply (step_render env pg view).
  - destruct (in_flight pg !! i) as [[k|k]|] eqn:H; [|done..].
    intros [= <-]. by apply step_completion.
  - destruct (in_flight pg !! i) as [[k|k]|] eqn:H; [done| |done].
    intros [= <-]. by apply step_speech.
  - destruct (in_flight pg !! i) as [p|] eqn:H; [|done].
    intros [= <-]. by apply (step_rejected env pg i p).
Qed.

Lemma play_reachable (env : Env) (evs : list Event) (pg pg' : Page) :
  reachable env any_event pg →
  play env evs pg = Some pg' →
  reachable env any_event pg'.
Proof.
  revert pg. induction evs as [|ev evs IH]; intros pg Hpg; simpl.
  - by intros [= <-].
  - destruct (happen env pg ev) as [pg1|] eqn:Hev; [|done].
    apply IH. apply (reachable_step env any_event pg ev pg1); [done|done|].
    by apply happen_step.
Qed.

(** A page reached with the send button pressed on fresh renders only:
    the question is typed, rendered, and sent. *)
Lemma reachable_submitted (q : string) :
  is_blank (js q) = false →
  reachable test_env send_on_fresh_render (submitted q).
Proof.
  intros Hblank.
  apply (reachable_step test_env send_on_fresh_render (typed q) SendPressed).
  - apply (reachable_step test_env send_on_fresh_render
             (dispatch (handlePromptChange (js q)) [] initial_page) Rendered).
    + apply (reachable_step test_env send_on_fresh_render initial_page
               (Typed (js q))).
      * apply reachable_initial.
      * by intros H.
      * by apply (step_change test_env initial_page (js q)).
    + by intros H.
    + by eapply step_render.
  - by intros _.
  - by apply (step_submit test_env (typed q)).
Qed.




End ChatProofs.

(** * Part V: more properties of the video service *)

Module VideoMore.

Import Video VideoProofs.

Local Open Scope list_scope.

(** ** Downloads *)

(** X1.  A download answered with a client or server error status
    (400 to 599) raises [HTTPError] with that status; the request is
    logged, and no file is created, emptied or changed: a file already at
    the path keeps its content. *)
Theorem X1_download_error_status_touches_no_file
    (svc : Services) (url : value) (local_filename : string) (w : World)
    (r : StreamedResponse) :
  requests_get svc (length (trace w)) url = inr r →
  (400 ≤ stream_status r < 600)%nat →
  download_file svc url local_filename w =
  (mkWorld (fs w) (trace w ++ [CallGet url]) (opened w),
   inl (HTTPError (stream_status r))).
Proof.
  intros Hget Hstatus. unfold download_file.
  rewrite bind_run. unfold request at 1. simpl. rewrite Hget.
  rewrite bind_run. unfold raise_for_status. by case_decide.
Qed.

Lemma X1_download_error_status_touches_no_file_witness :
  download_file not_found (VStr "https://img.example/1.png") "image_0.png"
    old_file
  = (mkWorld {[ "image_0.png" := Raw [Byte.x09] ]}
       [CallGet (VStr "https://img.example/1.png")] [],
     inl (HTTPError 404)).
Proof.
  apply (X1_download_error_status_touches_no_file not_found
           (VStr "https://img.example/1.png") "image_0.png" old_file
           {| stream_status := 404; chunks := []; interrupted := None |}).
  - reflexivity.
  - simpl. lia.
Defined.

(** X2.  A download answered with any other status replaces whatever the
    file held by the bytes received, in the order received.  It returns
    the file name when the stream ends normally; when the stream breaks
    it raises the stream's exception and leaves the partial file
    behind. *)
Theorem X2_download_replaces_the_file
    (svc : Services) (url : value) (local_filename : string) (w : World)
    (r : StreamedResponse) :
  requests_get svc (length (trace w)) url = inr r →
  ¬ (400 ≤ stream_status r < 600)%nat →
  download_file svc url local_filename w =
  (mkWorld (<[local_filename := Raw (concat (chunks r))]> (fs w))
     (trace w ++ [CallGet url]) (opened w ++ [local_filename]),
   match interrupted r with
   | Some e => inl e
   | None => inr local_filename
   end).
Proof.
  intros Hget Hstatus. unfold download_file.
  rewrite bind_run. unfold request at 1. simpl. rewrite Hget.
  rewrite bind_run. unfold raise_for_status. case_decide; [done|]. simpl.
  rewrite bind_run. unfold open_wb at 1. simpl.
  rewrite bind_run, (write_chunks_run _ []) by apply lookup_insert_eq. simpl.
  rewrite insert_insert_eq. by destruct (interrupted r).
Qed.

Lemma X2_download_replaces_the_file_witness :
  download_file broken_stream (VStr "https://img.example/1.png") "image_0.png"
    old_file
  = (mkWorld {[ "image_0.png" := Raw [Byte.x01; Byte.x02] ]}
       [CallGet (VStr "https://img.example/1.png")] ["image_0.png"],
     inl (ServiceError "requests" "connection broken")).
Proof.
  rewrite (X2_download_replaces_the_file broken_stream
             (VStr "https://img.example/1.png") "image_0.png" old_file
             {| stream_status := 200;
                chunks := [[Byte.x01; Byte.x02]];
                interrupted := Some (ServiceError "requests" "connection broken") |}).
  - simpl. by rewrite insert_singleton_eq.
  - reflexivity.
  - simpl. lia.
Defined.

(** ** The shape of the script *)

(** X3.  When the [script] member of the reply is not a list (and not an
    empty object or an empty string, which hold nothing to visit),
    [get_ai_video] raises a [TypeError] right after the reply: no
    picture, no narration and no download is asked for. *)
Theorem X3_script_that_is_no_list_is_a_type_error
    (svc : Services) (settings : Settings) (payload : GenerateVideoPayload)
    (w w1 : World) (script script_arr : value) :
  get_script svc (prompt payload) w = (w1, inr script) →
  py_getitem script "script" = inr script_arr →
  (∀ items, script_arr ≠ VList items) →
  script_arr ≠ VDict [] →
  script_arr ≠ VStr EmptyString →
  ∃ msg, get_ai_video svc settings payload w = (w1, inl (TypeError msg)).
Proof.
  intros Hscript Harr Hlist Hdict Hstr. unfold get_ai_video.
  rewrite bind_run, Hscript, bind_run. unfold lift at 1.
  rewrite Harr, bind_run. unfold lift at 1.
  destruct script_arr as [| | | |s|items|bindings];
    try (simpl; eexists; reflexivity).
  - destruct s as [|a s]; [done|].
    cbn [py_iter fmap list_fmap Strings.String.list_ascii_of_string].
    rewrite bind_run, get_ai_video_loop_cons.
    unfold directive_media. rewrite bind_run. unfold lift at 1. simpl.
    by eexists.
  - by destruct (Hlist items).
  - destruct bindings as [|[k v] bindings]; [done|].
    cbn [py_iter fmap list_fmap].
    rewrite bind_run, get_ai_video_loop_cons.
    unfold directive_media. rewrite bind_run. unfold lift at 1. simpl.
    by eexists.
Qed.

Lemma X3_script_that_is_no_list_is_a_type_error_witness :
  get_ai_video object_script keys {| prompt := "Say hello" |} empty_world
  = (mkWorld ∅ [CallChat (script_request "Say hello")] [],
     inl (TypeError "string indices must be integers, not 'str'")).
Proof.
  destruct (X3_script_that_is_no_list_is_a_type_error object_script keys
              {| prompt := "Say hello" |} empty_world
              (get_script object_script "Say hello" empty_world).1
              (VDict [("script", object_value [("text", "Hello.")])])
              (object_value [("text", "Hello.")]))
    as [msg Hrun]; [done..|].
  assert (msg = "string indices must be integers, not 'str'") as ->
    by (vm_compute in Hrun; congruence).
  rewrite Hrun. by vm_compute.
Defined.

(** ** The requests of a call, in order *)

Section Order.

Context (svc : Services) (settings : Settings).

Lemma get_script_trace (prompt : string) (w : World) :
  trace (get_script svc prompt w).1 = trace w ++ [CallChat (script_request prompt)].
Proof.
  unfold get_script. rewrite bind_run. unfold request at 1. simpl.
  destruct (chat_completions_create svc _ _) as [e|choices]; [done|].
  rewrite bind_run. unfold lift at 1.
  destruct (py_first choices) as [e|[json_str|]]; done.
Qed.

Lemma pair_calls_length (data_list : list MediaPair) :
  length (data_list ≫= pair_calls) = 2 * length data_list.
Proof.
  induction data_list as [|data rest IH]; [done|].
  change (length (pair_calls data ++ (rest ≫= pair_calls)) = 2 * S (length rest)).
  rewrite length_app, IH. simpl. lia.
Qed.

(** X4.  A call of [get_ai_video] that returns has sent, in this order
    and nothing else: the chat request; for every directive of the script,
    in script order, its picture request then its speech request; and
    only then, for every media pair in order, the download of its picture
    then of its narration.  The media pairs are those the loop over the
    directives has produced, the [i]-th made from the [i]-th directive,
    so the downloads fetch the URLs the two services answered with.
    With [k] directives that is [1 + 4 k] requests, and the first
    download comes after the last synthesis. *)
Theorem X4_requests_of_a_call_in_order
    (payload : GenerateVideoPayload) (w w' : World) (resp : FileResponse) :
  get_ai_video svc settings payload w = (w', inr resp) →
  ∃ w1 w2 script script_arr items data_list,
    get_script svc (prompt payload) w = (w1, inr script) ∧
    py_getitem script "script" = inr script_arr ∧
    py_iter script_arr = inr items ∧
    get_ai_video_loop svc settings items [] w1 = (w2, inr data_list) ∧
    length data_list = length items ∧
    (∀ i item, items !! i = Some item →
       ∃ mp, data_list !! i = Some mp ∧
             made_from svc settings (length (trace w1) + 2 * i) item mp) ∧
    trace w' = trace w ++ [CallChat (script_request (prompt payload))]
                 ++ (items ≫= item_calls settings)
                 ++ (data_list ≫= pair_calls) ∧
    length (trace w') = length (trace w) + 1 + 4 * length items.
Proof.
  unfold get_ai_video. intros H.
  apply bind_ok in H as (w1 & script & Hscript & H).
  apply bind_ok in H as (w1' & script_arr & Harr & H).
  injection Harr as <- Harr.
  apply bind_ok in H as (w1' & items & Hitems & H).
  injection Hitems as <- Hitems.
  apply bind_ok in H as (w2 & data_list & Hloop & H).
  pose proof Hloop as Hloop'.
  apply get_ai_video_loop_ok in Hloop' as (pairs & -> & Hlen & Hmade & -> & Hclock).
  apply get_final_video_files in H as (_ & _ & H). simpl in H.
  pose proof (get_script_trace (prompt payload) w) as Htrace1.
  rewrite Hscript in Htrace1. simpl in Htrace1.
  exists w1, (mkWorld (fs w1) (trace w1 ++ (items ≫= item_calls settings))
                (opened w1)), script, script_arr, items, pairs.
  repeat split; try done.
  - rewrite H, Htrace1, <- !app_assoc. done.
  - rewrite H, length_app, pair_calls_length. simpl in Hclock.
    rewrite Hclock, Htrace1, length_app, Hlen. simpl. lia.
Qed.

End Order.

Lemma X4_requests_of_a_call_in_order_witness :
  trace (get_ai_video studio keys
           {| prompt := "Documentary on penguins" |} empty_world).1
  = [CallChat (script_request "Documentary on penguins");
     CallImage (image_request (VStr "penguins on ice"));
     CallPost murf_url (murf_headers keys)
       (murf_payload (VStr "Penguins march.") (VStr "en-UK-gabriel"));
     CallImage (image_request (VStr "a penguin diving"));
     CallPost murf_url (murf_headers keys)
       (murf_payload (VStr "They dive.") (VStr "en-UK-gabriel"));
     CallGet (VStr "https://img.example/1.png");
     CallGet (VStr "https://murf.example/a.wav");
     CallGet (VStr "https://img.example/3.png");
     CallGet (VStr "https://murf.example/a.wav")].
Proof.
  destruct (get_ai_video studio keys {| prompt := "Documentary on penguins" |}
              empty_world) as [w' [e|resp]] eqn:Hrun.
  - vm_compute in Hrun. discriminate Hrun.
  - destruct (X4_requests_of_a_call_in_order studio keys _ _ _ _ Hrun)
      as (w1 & w2 & script & script_arr & items & data_list
          & Hscript & Harr & Hitems & Hloop & _ & _ & Htrace & _).
    vm_compute in Hscript. injection Hscript as <- <-.
    vm_compute in Harr. injection Harr as <-.
    vm_compute in Hitems. injection Hitems as <-.
    vm_compute in Hloop. injection Hloop as <- <-.
    simpl. rewrite Htrace. by vm_compute.
Defined.

(** ** What the scratch files hold *)

Section Paths.

Context (svc : Services) (settings : Settings).

(** X5.  After a call of [get_final_video] that returns, the scratch
    files of every media pair hold exactly what was downloaded for that
    pair, the picture from its image URL and the narration from its audio
    URL: no later item has written over them.  The sound file made on
    the way to the video, [output_videoTEMP_MPY_wvf_snd.mp3], is gone,
    also when a file of that name was there before.  Every file that is
    neither a scratch file of this call, nor the video, nor that sound
    file is as it was. *)
Theorem X5_scratch_files_hold_their_own_downloads
    (data_list : list MediaPair) (w w' : World) (resp : FileResponse) :
  get_final_video svc data_list w = (w', inr resp) →
  (∀ i data, data_list !! i = Some data →
     ∃ picture narration,
       requests_get svc (length (trace w) + 2 * i) (imageUrl data)
         = inr picture ∧
       requests_get svc (length (trace w) + 2 * i + 1) (audioUrl data)
         = inr narration ∧
       fs w' !! image_name i = Some (Raw (concat (chunks picture))) ∧
       fs w' !! audio_name i = Some (Raw (concat (chunks narration)))) ∧
  fs w' !! "output_videoTEMP_MPY_wvf_snd.mp3" = None ∧
  (∀ name, name ∉ scratch_names 0 (length data_list) →
           name ≠ output_path →
           name ≠ "output_videoTEMP_MPY_wvf_snd.mp3" →
           fs w' !! name = fs w !! name).
Proof.
  intros Hrun. rewrite <- temp_audiofile_output_path.
  pose proof (get_final_video_files _ _ _ _ _ Hrun) as (Hheld & Hframe & _).
  apply get_final_video_ok in Hrun as (video & _ & _ & _ & _ & _ & _ & Hdom).
  split; [done|]. split; [|done].
  apply not_elem_of_dom. rewrite Hdom. set_solver.
Qed.

End Paths.

Lemma X5_scratch_files_hold_their_own_downloads_witness :
  fs (get_final_video studio [a_pair; a_pair] old_file).1 !! "image_0.png"
  = Some (Raw [Byte.x01; Byte.x02; Byte.x03]).
Proof.
  destruct (get_final_video studio [a_pair; a_pair] old_file)
    as [w' [e|resp]] eqn:Hrun.
  - vm_compute in Hrun. discriminate Hrun.
  - destruct (X5_scratch_files_hold_their_own_downloads studio _ _ _ _ Hrun)
      as [Hheld _].
    destruct (Hheld 0 a_pair eq_refl) as (p & n & Hp & _ & Hfile & _).
    injection Hp as <-. exact Hfile.
Defined.

(** ** Lengths *)

Lemma Zsum_at_least_length (l : list Z) :
  Forall (λ d, 1 ≤ d)%Z l → (Z.of_nat (length l) ≤ Zsum l)%Z.
Proof.
  induction 1 as [|d l Hd _ IH]; unfold Zsum in *; simpl; lia.
Qed.

(** X6.  Narrations have a length that is not negative.  Then in the
    video written by a call of [get_final_video] that returns, every
    segment lasts at least one second, so the video lasts at least as
    many seconds as there are media pairs: an empty or very short
    narration still shows its picture for a second. *)
Theorem X6_every_segment_lasts_a_second
    (svc : Services) (data_list : list MediaPair) (w w' : World)
    (resp : FileResponse) :
  (∀ f d, ffmpeg_parse_duration svc f = inr d → (0 <= d)%Q) →
  get_final_video svc data_list w = (w', inr resp) →
  ∃ video,
    fs w' !! path resp = Some (Encoded video 24 "libx264") ∧
    Forall (λ clip, 1 ≤ clip_duration clip)%Z (clips video) ∧
    (Z.of_nat (length data_list) ≤ duration video)%Z.
Proof.
  intros Hpos Hrun.
  apply get_final_video_ok in Hrun
    as (video & -> & Hfile & Hclips & Hnth & Hduration & _).
  exists video. split; [done|].
  assert (Forall (λ clip, 1 ≤ clip_duration clip)%Z (clips video)) as Hall.
  { apply Forall_lookup. intros i clip Hclip.
    destruct (lookup_lt_is_Some_2 data_list i) as [data Hi].
    { rewrite <- Hclips. by apply lookup_lt_Some in Hclip. }
    destruct (Hnth i data Hi)
      as (clip' & Hclip' & picture & narration & a & _ & _ & _ & Hd & _ & _ & Hlen).
    assert (clip' = clip) as -> by congruence.
    rewrite Hlen, (py_int_floor _ (Hpos _ _ Hd)).
    pose proof (Qfloor_resp_le 0 _ (Hpos _ _ Hd)) as Hfloor.
    change (Qfloor 0) with 0%Z in Hfloor. lia. }
  split; [done|].
  rewrite Hduration, <- Hclips, <- (length_fmap clip_duration).
  apply Zsum_at_least_length. by apply Forall_fmap.
Qed.

Lemma X6_every_segment_lasts_a_second_witness :
  ∃ video,
    fs (get_final_video studio [a_pair; a_pair] empty_world).1 !! output_path
      = Some (Encoded video 24 "libx264") ∧
    (2 ≤ duration video)%Z.
Proof.
  destruct (X6_every_segment_lasts_a_second studio [a_pair; a_pair]
              empty_world
              (get_final_video studio [a_pair; a_pair] empty_world).1
              {| path := output_path; media_type := "video/mp4" |})
    as (video & Hfile & _ & Hduration).
  - intros [content|video fps codec|sound codec] d; simpl; [|done..].
    intros [= <-]. unfold Qle. simpl. lia.
  - by vm_compute.
  - exists video. split; [exact Hfile|exact Hduration].
Defined.

(** ** The files a call changes *)

Lemma quiet_touches_only {A} (P : string → Prop) (m : M A) :
  quiet m → touches_only P m.
Proof. intros H w name _. by destruct (H w) as [-> _]. Qed.

Lemma touches_only_bind {A B} (P : string → Prop) (m : M A) (f : A → M B) :
  touches_only P m → (∀ a, touches_only P (f a)) → touches_only P (m ≫= f).
Proof.
  intros Hm Hf w name Hname. rewrite bind_run.
  specialize (Hm w name Hname).
  destruct (m w) as [w1 [e|a]]; simpl in *; [done|].
  by rewrite (Hf a w1 name Hname).
Qed.

Lemma touches_only_read_file (P : string → Prop) (path : string) :
  touches_only P (read_file path).
Proof. intros w name _. unfold read_file. by destruct (fs w !! path). Qed.

Lemma touches_only_file_write (P : string → Prop) (path : string) (f : file) :
  P path → touches_only P (file_write path f).
Proof.
  intros HP w name Hname. simpl. apply lookup_insert_ne. by intros ->.
Qed.

Lemma touches_only_open_wb (P : string → Prop) (path : string) :
  P path → touches_only P (open_wb path).
Proof.
  intros HP w name Hname. simpl. apply lookup_insert_ne. by intros ->.
Qed.

Lemma touches_only_remove_if_exists (P : string → Prop) (path : string) :
  P path → touches_only P (remove_if_exists path).
Proof.
  intros HP w name Hname. simpl. apply lookup_delete_ne. by intros ->.
Qed.

Create HintDb touches.
#[export] Hint Resolve quiet_touches_only touches_only_read_file
  touches_only_file_write touches_only_open_wb
  touches_only_remove_if_exists : touches.
#[export] Hint Resolve quiet_mret quiet_raise quiet_lift quiet_request
  quiet_get_script quiet_get_ai_video_loop : touches.

Ltac touches_steps :=
  repeat (first [ solve [auto with touches]
                | apply touches_only_bind; [|intros ?] ]).

Section Changes.

Context (svc : Services) (settings : Settings).

Lemma touches_only_write_chunks (P : string → Prop) (path : string)
    (written : list Byte.byte) (cs : list (list Byte.byte)) :
  P path → touches_only P (write_chunks path written cs).
Proof.
  intros HP. revert written.
  induction cs as [|chunk cs IH]; intros written; simpl.
  - auto with touches.
  - touches_steps.
Qed.

Lemma touches_only_download_file (P : string → Prop) (url : value)
    (local_filename : string) :
  P local_filename → touches_only P (download_file svc url local_filename).
Proof.
  intros HP. pose proof (touches_only_write_chunks P local_filename).
  unfold download_file, raise_for_status. touches_steps.
  - case_decide; auto with touches.
  - destruct (interrupted _); auto with touches.
Qed.

Lemma touches_only_get_final_video_loop (data_list : list MediaPair)
    (counter : nat) (video_clips : list VideoClip) :
  touches_only scratch_path
    (get_final_video_loop svc data_list counter video_clips).
Proof.
  pose proof (touches_only_download_file scratch_path).
  assert (∀ i, scratch_path (image_name i)) by (intros i; exists i; by left).
  assert (∀ i, scratch_path (audio_name i)) by (intros i; exists i; by right).
  revert counter video_clips.
  induction data_list as [|data rest IH]; intros counter video_clips; simpl.
  - auto with touches.
  - unfold AudioFileClip_open, ImageClip_open. cbv zeta. touches_steps.
Qed.

Lemma touches_only_weaken {A} (P Q : string → Prop) (m : M A) :
  (∀ path, P path → Q path) → touches_only P m → touches_only Q m.
Proof. intros HPQ Hm w name Hname. apply Hm. intros HP. by apply Hname, HPQ. Qed.

Lemma touches_only_write_audiofile (P : string → Prop)
    (sound : CompositeAudioClip) (audiofile audio_codec : string) :
  P audiofile → touches_only P (write_audiofile svc sound audiofile audio_codec).
Proof.
  intros HP. unfold write_audiofile.
  destruct (ffmpeg_audiowrite svc sound audio_codec) as [|e [partial|]];
    touches_steps.
Qed.

Lemma touches_only_ffmpeg_write_video (P : string → Prop)
    (video : CompositeVideoClip) (filename : string) (fps : nat)
    (codec : string) :
  P filename → touches_only P (ffmpeg_write_video svc video filename fps codec).
Proof.
  intros HP. unfold ffmpeg_write_video.
  destruct (ffmpeg_write svc video fps codec) as [|e [partial|]];
    touches_steps.
Qed.

Lemma touches_only_write_videofile (P : string → Prop)
    (video : CompositeVideoClip) (filename : string) (fps : nat)
    (codec : string) :
  P filename → P (temp_audiofile filename) →
  touches_only P (write_videofile svc video filename fps codec).
Proof.
  intros HP Htemp.
  pose proof (touches_only_ffmpeg_write_video P video filename fps codec HP).
  unfold write_videofile. destruct (audio video) as [sound|]; [|done].
  destruct (splitext (basename filename)) as [name ext].
  pose proof (touches_only_write_audiofile P sound (temp_audiofile filename)
                (default_audio_codec (extension_of ext)) Htemp).
  touches_steps.
Qed.

Lemma touches_only_get_final_video (data_list : list MediaPair) :
  touches_only service_path (get_final_video svc data_list).
Proof.
  assert (∀ c v, touches_only service_path
                   (get_final_video_loop svc data_list c v)) as Hloop.
  { intros c v.
    apply (touches_only_weaken scratch_path); [by right; right|].
    apply touches_only_get_final_video_loop. }
  assert (∀ video fps codec,
            touches_only service_path
              (write_videofile svc video output_path fps codec)) as Hwrite.
  { intros video fps codec. apply touches_only_write_videofile.
    - by left.
    - right. by left. }
  unfold get_final_video. touches_steps.
Qed.

(** X7.  Whatever its outcome, a call of [get_ai_video] leaves every
    file of the working directory as it was, except [output_video.mp4],
    the sound file [output_videoTEMP_MPY_wvf_snd.mp3] made and removed
    on the way to the video, and files named [image_<i>.png] or
    [audio_<i>.wav]. *)
Theorem X7_other_files_are_left_alone
    (payload : GenerateVideoPayload) (w : World) (name : string) :
  name ≠ "output_video.mp4" →
  name ≠ "output_videoTEMP_MPY_wvf_snd.mp3" →
  (∀ i, name ≠ image_name i ∧ name ≠ audio_name i) →
  fs (get_ai_video svc settings payload w).1 !! name = fs w !! name.
Proof.
  intros Hout Htemp Hscratch.
  assert (touches_only service_path (get_ai_video svc settings payload))
    as Hcall.
  { pose proof touches_only_get_final_video.
    unfold get_ai_video. touches_steps. }
  apply Hcall. rewrite <- temp_audiofile_output_path in Htemp.
  intros [->|[->|(i & [->| ->])]]; try done.
  - by destruct (Hscratch i).
  - by destruct (Hscratch i).
Qed.

(** X8.  When a download or the reading of a downloaded file fails for
    some pair, [get_final_video] raises that exception at once: the video
    file is neither created nor changed, so a video left there by an
    earlier call stays, and only scratch files have been written. *)
Theorem X8_failed_download_writes_no_video
    (data_list : list MediaPair) (w w' : World) (e : exn) :
  get_final_video_loop svc data_list 0 [] w = (w', inl e) →
  get_final_video svc data_list w = (w', inl e) ∧
  fs w' !! output_path = fs w !! output_path ∧
  ∀ name, ¬ scratch_path name → fs w' !! name = fs w !! name.
Proof.
  intros Hloop.
  pose proof (touches_only_get_final_video_loop data_list 0 [] w) as Hframe.
  rewrite Hloop in Hframe. simpl in Hframe.
  split; [|split; [|done]].
  - unfold get_final_video. by rewrite bind_run, Hloop.
  - apply Hframe. intros [i [Hi|Hi]]; symmetry in Hi.
    + by apply image_name_output_path in Hi.
    + by apply audio_name_output_path in Hi.
Qed.

End Changes.

Lemma X7_other_files_are_left_alone_witness :
  fs (get_ai_video studio keys {| prompt := "Documentary on penguins" |}
        notes).1 !! "notes.txt"
  = Some (Raw [Byte.x09]).
Proof.
  rewrite (X7_other_files_are_left_alone studio keys
             {| prompt := "Documentary on penguins" |} notes "notes.txt").
  - reflexivity.
  - intros H. discriminate H.
  - intros H. discriminate H.
  - intros i. unfold image_name, audio_name.
    split; intros H; discriminate H.
Defined.

Lemma X8_failed_download_writes_no_video_witness :
  get_final_video not_found [a_pair] notes
  = (mkWorld {[ "notes.txt" := Raw [Byte.x09] ]}
       [CallGet (VStr "https://img.example/1.png")] [],
     inl (HTTPError 404)).
Proof.
  destruct (X8_failed_download_writes_no_video not_found [a_pair] notes
              (get_final_video_loop not_found [a_pair] 0 [] notes).1
              (HTTPError 404)) as [Hrun _]; [by vm_compute|].
  rewrite Hrun. by vm_compute.
Defined.

(** ** When the encoder fails *)

(** X19.  The downloads have succeeded and the sound of the video has
    been written, and then the encoding of the video fails.  Then
    [get_final_video] raises the encoder's exception and cleans nothing
    up: the sound file [output_videoTEMP_MPY_wvf_snd.mp3] stays in the
    working directory, [output_video.mp4] holds what the encoder wrote
    before it failed (or is as it was, when it wrote nothing), and every
    other file, the scratch files among them, is as the downloads left
    it. *)
Theorem X19_failed_encoding_cleans_nothing_up
    (svc : Services) (data_list : list MediaPair) (w w1 : World)
    (video_clips : list VideoClip) (video : CompositeVideoClip)
    (e : exn) (partial : option (list Byte.byte)) :
  get_final_video_loop svc data_list 0 [] w = (w1, inr video_clips) →
  concatenate_videoclips video_clips = inr video →
  (∀ sound, audio video = Some sound →
            ffmpeg_audiowrite svc sound "libmp3lame" = EncodeDone) →
  ffmpeg_write svc video 24 "libx264" = EncodeFailed e partial →
  ∃ w' sound,
    get_final_video svc data_list w = (w', inl e) ∧
    audio video = Some sound ∧
    fs w' !! "output_videoTEMP_MPY_wvf_snd.mp3"
      = Some (EncodedAudio sound "libmp3lame") ∧
    fs w' !! output_path
      = match partial with
        | Some content => Some (Raw content)
        | None => fs w1 !! output_path
        end ∧
    ∀ name, name ≠ output_path →
            name ≠ "output_videoTEMP_MPY_wvf_snd.mp3" →
            fs w' !! name = fs w1 !! name.
Proof.
  intros Hloop Hcat Hsound Hvideo.
  destruct (final_video_has_sound _ _ _ _ _ _ Hloop Hcat) as [sound Hhas].
  specialize (Hsound sound Hhas).
  rewrite <- temp_audiofile_output_path.
  pose proof temp_audiofile_not_output as Hne.
  unfold get_final_video. rewrite bind_run, Hloop, bind_run, Hcat.
  unfold lift at 1. rewrite bind_run.
  unfold write_videofile. rewrite Hhas, splitext_output_path.
  rewrite default_audio_codec_mp4, bind_run.
  unfold write_audiofile at 1. rewrite Hsound. unfold file_write at 1.
  rewrite bind_run. unfold ffmpeg_write_video. rewrite Hvideo.
  destruct partial as [content|].
  - rewrite !bind_run. unfold open_wb at 1. rewrite bind_run.
    unfold file_write at 1. simpl.
    eexists _, sound. split; [reflexivity|]. split; [done|].
    simpl. split; [|split].
    + by rewrite !lookup_insert_ne, lookup_insert_eq by done.
    + by rewrite lookup_insert_eq.
    + intros name Hout Htemp. by rewrite !lookup_insert_ne.
  - simpl. eexists _, sound. split; [reflexivity|]. split; [done|].
    simpl. split; [|split].
    + by rewrite lookup_insert_eq.
    + by rewrite lookup_insert_ne.
    + intros name Hout Htemp. by rewrite lookup_insert_ne.
Qed.

Lemma X19_failed_encoding_cleans_nothing_up_witness :
  ∃ w' sound,
    get_final_video broken_encoder [a_pair] empty_world
      = (w', inl (OSError "Broken pipe")) ∧
    fs w' !! "output_videoTEMP_MPY_wvf_snd.mp3"
      = Some (EncodedAudio sound "libmp3lame") ∧
    fs w' !! "output_video.mp4" = Some (Raw [Byte.x00]) ∧
    fs w' !! "audio_0.wav" = Some (Raw [Byte.x01; Byte.x02; Byte.x03]).
Proof.
  destruct (get_final_video_loop broken_encoder [a_pair] 0 [] empty_world)
    as [w1 [e|video_clips]] eqn:Hloop; [by vm_compute in Hloop|].
  destruct (concatenate_videoclips video_clips) as [e|video] eqn:Hcat.
  { vm_compute in Hloop. injection Hloop as <- <-. by vm_compute in Hcat. }
  destruct (X19_failed_encoding_cleans_nothing_up broken_encoder [a_pair]
              empty_world w1 video_clips video (OSError "Broken pipe")
              (Some [Byte.x00]) Hloop Hcat)
    as (w' & sound & Hrun & _ & Htemp & Hout & Hframe); [done..|].
  exists w', sound. split; [exact Hrun|]. split; [exact Htemp|].
  split; [exact Hout|].
  rewrite (Hframe "audio_0.wav") by done.
  vm_compute in Hloop. by injection Hloop as <- _.
Defined.

(** ** The answer of the speech service *)

(** X9.  [get_voiceover_url] judges the answer of the speech service by
    its body alone; the status of the answer is never looked at.  When
    the body is a JSON object, the call returns its [audioFile] member,
    and raises [KeyError] for [audioFile] when the object has none, as an
    error body does.  One request has been sent either way. *)
Theorem X9_speech_answer_is_judged_by_its_body
    (svc : Services) (settings : Settings) (text voice_id : value)
    (w : World) (status : nat) (body : string)
    (bindings : list (string * value)) :
  requests_post svc (length (trace w)) murf_url (murf_headers settings)
    (murf_payload text voice_id)
    = inr {| status_code := status; Video.text := body |} →
  json_loads svc body = inr (VDict bindings) →
  get_voiceover_url svc settings text voice_id w =
  (mkWorld (fs w)
     (trace w ++ [CallPost murf_url (murf_headers settings)
                    (murf_payload text voice_id)])
     (opened w),
   match dict_get bindings "audioFile" with
   | Some url => inr url
   | None => inl (KeyError "audioFile")
   end).
Proof.
  intros Hpost Hbody. rewrite get_voiceover_url_run. f_equal.
  unfold voice_answer. rewrite Hpost. simpl. by rewrite Hbody.
Qed.

Lemma X9_speech_answer_is_judged_by_its_body_witness :
  (get_voiceover_url studio keys (VStr "Penguins march.") (VStr "en-UK-gabriel")
     empty_world).2
  = inr (VStr "https://murf.example/a.wav").
Proof.
  by rewrite (X9_speech_answer_is_judged_by_its_body studio keys
                (VStr "Penguins march.") (VStr "en-UK-gabriel") empty_world
                200 (render_object speech_body)
                [("audioFile", VStr "https://murf.example/a.wav")]).
Defined.

End VideoMore.

(** * Part VI: more properties of the chatbot *)

Module ChatMore.

Import Chat ChatProofs.

Local Open Scope list_scope.

(** ** The guard of [handlePromptSubmit] *)

Lemma trim_start_nil (s : js_string) : trim_start s = [] → white s.
Proof.
  induction s as [|c s IH]; simpl; [by constructor|].
  destruct (is_trimmed c) eqn:Hc; [|done].
  intros H. constructor; [done|by apply IH].
Qed.

Lemma trim_start_head (s rest : js_string) (c : N) :
  trim_start s = c :: rest → is_trimmed c = false.
Proof.
  induction s as [|c' s IH]; simpl; [done|].
  destruct (is_trimmed c') eqn:Hc; [done|]. by intros [= <- _].
Qed.

Lemma trim_nil (s : js_string) : trim s = [] → white s.
Proof.
  unfold trim, trim_end. intros H.
  apply (f_equal reverse) in H. rewrite reverse_involutive in H.
  change (reverse []) with (@nil N) in H.
  apply trim_start_nil, Forall_reverse in H.
  rewrite reverse_involutive in H.
  destruct (trim_start s) as [|c rest] eqn:Hstart; [by apply trim_start_nil|].
  apply trim_start_head in Hstart.
  apply Forall_cons_1 in H as [Hc _]. congruence.
Qed.

Lemma is_blank_true (s : js_string) : is_blank s = true ↔ white s.
Proof.
  split; [|apply is_blank_white].
  unfold is_blank. intros [H|H]%orb_true_iff; apply bool_decide_eq_true_1 in H.
  - subst. constructor.
  - by apply trim_nil.
Qed.

(** X10.  A call of [handlePromptSubmit] sends no request exactly when
    the prompt is empty or made of white space and line terminators only;
    on any other prompt the first thing it sends is the completion
    request for the whole conversation and the prompt. *)
Theorem X10_submit_is_skipped_exactly_on_blank_prompts
    (env : Env) (svc : Services) (s : Session) :
  (calls (run svc (handlePromptSubmit env (ui s)) s).1 = calls s
   ↔ white (prompt (ui s))) ∧
  (¬ white (prompt (ui s)) →
   ∃ rest, calls (run svc (handlePromptSubmit env (ui s)) s).1
           = calls s ++ CallOpenAI (completion_request (ui s)) :: rest).
Proof.
  assert (is_blank (prompt (ui s)) = false →
          ∃ rest, calls (run svc (handlePromptSubmit env (ui s)) s).1
                  = calls s ++ CallOpenAI (completion_request (ui s)) :: rest)
    as Hsent.
  { intros Hblank.
    unfold handlePromptSubmit, generateChatGPTResponse, generateSpeechWithKey.
    cbv zeta. rewrite Hblank. cbn [run ui calls].
    fold (completion_request (ui s)).
    destruct (createChatCompletion svc _ _) as [e|gptRes]; [by exists []|].
    destruct (choices gptRes) as [|choice others]; [by exists []|].
    cbn [run ui calls].
    destruct (axios_post svc _ _ _ _) as [e|speech]; cbn [run ui calls fst];
      rewrite <- app_assoc; by eexists. }
  split; [split|].
  - intros Hcalls. apply is_blank_true.
    destruct (is_blank (prompt (ui s))) eqn:Hblank; [done|].
    destruct (Hsent eq_refl) as [rest Hrest].
    rewrite Hcalls in Hrest. apply (f_equal length) in Hrest.
    rewrite length_app in Hrest. simpl in Hrest. lia.
  - intros Hwhite%is_blank_white. unfold handlePromptSubmit.
    by rewrite Hwhite.
  - intros Hwhite. apply Hsent.
    destruct (is_blank (prompt (ui s))) eqn:Hblank; [|done].
    by apply is_blank_true in Hblank.
Qed.

Lemma X10_submit_is_skipped_exactly_on_blank_prompts_witness :
  ∃ rest,
    calls (run parrot
             (handlePromptSubmit test_env (ui (asking "Which is the largest planet?")))
             (asking "Which is the largest planet?")).1
    = CallOpenAI (completion_request (ui (asking "Which is the largest planet?")))
        :: rest.
Proof.
  destruct (X10_submit_is_skipped_exactly_on_blank_prompts test_env parrot
              (asking "Which is the largest planet?")) as [_ Hsent].
  apply Hsent. intros Hwhite.
  apply Forall_cons_1 in Hwhite as [Hw _]. discriminate Hw.
Defined.

(** ** A submission that fails *)

(** X11.  When a call of [handlePromptSubmit] ends with an exception
    (the completion request is rejected, the completion has no choice, or
    the speech request is rejected), the history is as it was, the prompt
    is still in the input, and the status is left at [LOADING]: nothing
    resets it, so the form stays disabled.  One or two requests have been
    sent. *)
Theorem X11_failed_submit_keeps_history_and_disables_the_form
    (env : Env) (svc : Services) (s s' : Session) (e : error) :
  run svc (handlePromptSubmit env (ui s)) s = (s', inl e) →
  gptQueries (ui s') = gptQueries (ui s) ∧
  prompt (ui s') = prompt (ui s) ∧
  currentAudioId (ui s') = currentAudioId (ui s) ∧
  status (ui s') = LOADING ∧
  (length (calls s) < length (calls s') ≤ length (calls s) + 2)%nat.
Proof.
  unfold handlePromptSubmit, generateChatGPTResponse, generateSpeechWithKey.
  cbv zeta. destruct (is_blank (prompt (ui s))); [done|].
  cbn [run ui calls].
  destruct (createChatCompletion svc _ _) as [e1|gptRes].
  { intros [= <- _]. simpl. rewrite length_app. simpl. repeat split; lia. }
  destruct (choices gptRes) as [|choice others].
  { intros [= <- _]. simpl. rewrite length_app. simpl. repeat split; lia. }
  cbn [run ui calls].
  destruct (axios_post svc _ _ _ _) as [e2|speech]; [|done].
  intros [= <- _]. simpl. rewrite !length_app. simpl. repeat split; lia.
Qed.

Lemma X11_failed_submit_keeps_history_and_disables_the_form_witness :
  status (ui (run hoarse
                (handlePromptSubmit test_env (ui (asking "Which is the largest planet?")))
                (asking "Which is the largest planet?")).1) = LOADING.
Proof.
  destruct (X11_failed_submit_keeps_history_and_disables_the_form test_env
              hoarse (asking "Which is the largest planet?")
              (run hoarse
                 (handlePromptSubmit test_env
                    (ui (asking "Which is the largest planet?")))
                 (asking "Which is the largest planet?")).1
              (Rejected "Request failed with status code 402"))
    as (_ & _ & _ & Hstatus & _); [by vm_compute|done].
Defined.

(** ** The conversation sent to the model *)

Lemma push_queries_cons (q : GPTQuery) (qs : list GPTQuery) :
  push_queries (q :: qs) =
  {| msg_role := user; content := Some (question q) |}
    :: {| msg_role := assistant; content := gptResponse q |}
    :: push_queries qs.
Proof.
  induction qs as [|q' qs IH] using rev_ind; [done|].
  rewrite app_comm_cons, !push_queries_snoc, IH. done.
Qed.

Lemma push_queries_length (qs : list GPTQuery) :
  length (push_queries qs) = 2 * length qs.
Proof.
  induction qs as [|q qs IH]; [done|].
  rewrite push_queries_cons. simpl. rewrite IH. lia.
Qed.

Lemma completion_request_roles (qs : list GPTQuery) (p : js_string) (i : nat)
    (m : ChatGPTMessage) :
  (push_queries qs ++ [ {| msg_role := user; content := Some p |} ]) !! i
    = Some m →
  msg_role m = if Nat.even i then user else assistant.
Proof.
  revert i. induction qs as [|q qs IH]; intros i.
  - destruct i as [|i]; simpl; [by intros [= <-]|].
    by rewrite lookup_nil.
  - rewrite push_queries_cons. destruct i as [|[|i]]; simpl.
    + by intros [= <-].
    + by intros [= <-].
    + apply IH.
Qed.

Lemma push_queries_lookup (qs : list GPTQuery) (j : nat) (q : GPTQuery) :
  qs !! j = Some q →
  push_queries qs !! (2 * j)
    = Some {| msg_role := user; content := Some (question q) |} ∧
  push_queries qs !! (2 * j + 1)
    = Some {| msg_role := assistant; content := gptResponse q |}.
Proof.
  revert j. induction qs as [|q' qs IH]; intros j; [done|].
  rewrite push_queries_cons. destruct j as [|j].
  - by intros [= ->].
  - intros Hj. simpl in Hj.
    replace (2 * S j) with (S (S (2 * j))) by lia.
    exact (IH j Hj).
Qed.

(** X12.  The first request of a call of [handlePromptSubmit] on a
    prompt that is not blank is a completion request that carries the
    whole history and the prompt: with [n] recorded exchanges it has
    [2 n + 1] messages; the question and the answer of the [j]-th
    exchange are the messages [2 j] and [2 j + 1], from the user and the
    assistant; the last message is the prompt, from the user; there is
    no system message.  When the call returns, the conversation is this
    list of messages followed by the assistant's answer, so the next
    request extends this one. *)
Theorem X12_request_carries_the_whole_conversation
    (env : Env) (svc : Services) (s : Session) :
  is_blank (prompt (ui s)) = false →
  ∃ req rest,
    calls (run svc (handlePromptSubmit env (ui s)) s).1
      = calls s ++ CallOpenAI req :: rest ∧
    length (messages req) = 2 * length (gptQueries (ui s)) + 1 ∧
    (∀ j q, gptQueries (ui s) !! j = Some q →
       messages req !! (2 * j)
         = Some {| msg_role := user; content := Some (question q) |} ∧
       messages req !! (2 * j + 1)
         = Some {| msg_role := assistant; content := gptResponse q |}) ∧
    last (messages req)
      = Some {| msg_role := user; content := Some (prompt (ui s)) |} ∧
    (∀ i m, messages req !! i = Some m →
            msg_role m = if Nat.even i then user else assistant) ∧
    (∀ s', run svc (handlePromptSubmit env (ui s)) s = (s', inr tt) →
       ∃ answer,
         conversation (ui s')
         = messages req ++ [ {| msg_role := assistant; content := answer |} ]).
Proof.
  intros Hblank.
  assert (∃ rest,
            calls (run svc (handlePromptSubmit env (ui s)) s).1
              = calls s ++ CallOpenAI (completion_request (ui s)) :: rest ∧
            ∀ s', run svc (handlePromptSubmit env (ui s)) s = (s', inr tt) →
              ∃ answer,
                conversation (ui s')
                = messages (completion_request (ui s))
                    ++ [ {| msg_role := assistant; content := answer |} ])
    as (rest & Hcalls & Hnext).
  { unfold handlePromptSubmit, generateChatGPTResponse, generateSpeechWithKey.
    cbv zeta. rewrite Hblank. cbn [run ui calls].
    change {| model := "gpt-3.5-turbo";
              messages := push_queries (gptQueries (ui s))
                            ++ [ {| msg_role := user;
                                    content := Some (prompt (ui s)) |} ];
              max_tokens := 1000 |} with (completion_request (ui s)).
    destruct (createChatCompletion svc _ _) as [e|gptRes].
    { exists []. by split. }
    destruct (choices gptRes) as [|choice others].
    { exists []. by split. }
    cbn [run ui calls].
    destruct (axios_post svc _ _ _ _) as [e|speech].
    - eexists. split; [by rewrite <- app_assoc|done].
    - cbn [run ui calls]. eexists. split; [by rewrite <- app_assoc|].
      intros s' [= <-]. exists (reply_content choice).
      unfold conversation. cbn. by rewrite push_queries_snoc, <- app_assoc. }
  exists (completion_request (ui s)), rest.
  split; [done|]. unfold completion_request at 1 2 3 4. cbn [messages].
  split; [|split; [|split; [|split]]].
  - rewrite length_app, push_queries_length. simpl. lia.
  - intros j q Hj. destruct (push_queries_lookup _ _ _ Hj) as [Huser Hassistant].
    split; apply lookup_app_l_Some; done.
  - apply last_snoc.
  - intros i m. apply completion_request_roles.
  - done.
Qed.

Lemma X12_request_carries_the_whole_conversation_witness :
  ∃ req rest,
    calls (run parrot
             (handlePromptSubmit test_env
                (setPrompt (js "And the smallest?") asked))
             {| ui := setPrompt (js "And the smallest?") asked; calls := [] |}).1
      = CallOpenAI req :: rest ∧
    length (messages req) = 5 ∧
    messages req !! 2
      = Some {| msg_role := user; content := Some (js "How big is it?") |}.
Proof.
  destruct (X12_request_carries_the_whole_conversation test_env parrot
              {| ui := setPrompt (js "And the smallest?") asked; calls := [] |})
    as (req & rest & Hcalls & Hlen & Hnth & _); [by vm_compute|].
  exists req, rest. split; [exact Hcalls|]. split; [exact Hlen|].
  by destruct (Hnth 1 _ eq_refl) as [Huser _].
Defined.

(** ** The recording that plays *)

Lemma fresh_send_on_fresh_render (pg : Page) (ev : Event) :
  fresh pg ev = true → send_on_fresh_render pg ev.
Proof. intros H ->. simpl in H. by apply bool_decide_eq_true_1 in H. Qed.

Lemma play_fresh_reachable (env : Env) (evs : list Event) (pg pg' : Page) :
  reachable env send_on_fresh_render pg →
  play_fresh env evs pg = Some pg' →
  reachable env send_on_fresh_render pg'.
Proof.
  revert pg. induction evs as [|ev evs IH]; intros pg Hpg; simpl.
  - by intros [= <-].
  - destruct (fresh pg ev) eqn:Hfresh; [|done].
    destruct (happen env pg ev) as [pg1|] eqn:Hev; [|done].
    apply IH. apply (reachable_step env send_on_fresh_render pg ev pg1).
    + done.
    + by apply fresh_send_on_fresh_render.
    + by apply happen_step.
Qed.

(** A new state React holds keeps the page in step when it extends the
    history and selects a recording that exists. *)
Lemma in_step_latest (pg : Page) (st : State) (others : list Pending)
    (log : list Call) :
  in_step pg →
  gptQueries (latest pg) `prefix_of` gptQueries st →
  currentAudioId st = currentAudioId (latest pg)
  ∨ currentAudioId st = None
  ∨ (∃ id, currentAudioId st = Some id ∧ id < length (gptQueries (rendered pg))) →
  in_step {| rendered := rendered pg; latest := st; in_flight := others;
             sent := log |}.
Proof.
  intros (Hprefix & Hrendered & Hlatest) Hgrows Hselection.
  split; [by etrans|]. split; [done|]. simpl.
  intros id Hid. pose proof (prefix_length _ _ Hgrows) as Hlen.
  destruct Hselection as [Hsame|[Hnone|(id' & Hsome & Hid')]].
  - rewrite Hsame in Hid. specialize (Hlatest id Hid). lia.
  - congruence.
  - assert (id' = id) as -> by congruence.
    pose proof (prefix_length _ _ Hprefix). lia.
Qed.

(** When the send button is pressed on fresh renders only, every event
    keeps the page in step. *)
Lemma step_in_step (env : Env) (pg pg' : Page) (ev : Event) :
  one_submit env pg → in_step pg →
  send_on_fresh_render pg ev →
  step env pg ev pg' →
  in_step pg'.
Proof.
  intros Hinv Hstep0 Hfresh Hstep. destruct Hstep
    as [pg value Henabled | pg Henabled | pg id Hid | pg | pg view Hview
       | pg i k r Hsplit | pg i k r Hsplit | pg i p Hsplit].
  - rewrite (dispatch_ended _ _ _ (setPrompt value (latest pg)) (sent pg))
      by done.
    apply in_step_latest; auto.
  - unfold handlePromptSubmit.
    destruct (is_blank (prompt (rendered pg))).
    + rewrite (dispatch_ended _ _ _ (latest pg) (sent pg)) by done.
      apply in_step_latest; auto.
    + unfold dispatch. cbn. apply in_step_latest; auto.
  - destruct (dispatch_handleAudioPlay (rendered pg) id (in_flight pg) pg)
      as (selection & Hselection & ->).
    apply in_step_latest; [done|done|].
    destruct Hselection as [-> | ->]; [by right; left|].
    right. right. by exists id.
  - rewrite (dispatch_ended _ _ _ (setCurrentAudioId None (latest pg)) (sent pg))
      by done.
    apply in_step_latest; [done|done|]. right. by left.
  - destruct Hstep0 as (_ & _ & Hlatest). by repeat split.
  - destruct (one_submit_single env pg _ _ Hinv Hsplit)
      as (-> & Hone & Hloading & render & Hqueries & Hblank & Hstops).
    pose proof (stops_at_handlePromptSubmit env render _ Hblank Hstops
                  r (latest pg) (sent pg)) as [log' [H|(k' & H & Hstops')]].
    + rewrite (dispatch_ended _ _ _ _ _ H). apply in_step_latest; auto.
    + rewrite (dispatch_waiting _ _ _ _ _ _ H). apply in_step_latest; auto.
  - destruct (one_submit_single env pg _ _ Hinv Hsplit)
      as (-> & Hone & Hloading & render & Hqueries & Hblank & Hstops).
    pose proof (stops_at_handlePromptSubmit env render _ Hblank Hstops
                  r (latest pg) (sent pg)) as [q H].
    rewrite (dispatch_ended _ _ _ _ _ H).
    apply in_step_latest; [done| |by left].
    cbn. rewrite Hqueries. by apply prefix_app_r.
  - by destruct Hstep0 as (? & ? & ?).
Qed.

Lemma reachable_in_step (env : Env) (pg : Page) :
  reachable env send_on_fresh_render pg → in_step pg.
Proof.
  induction 1 as [|pg ev pg' Hreach IH Hfresh Hstep].
  - by repeat split.
  - apply (step_in_step env pg pg' ev); [|done..].
    by apply reachable_one_submit.
Qed.

(** A state that selects a recording of its history, if any, renders. *)
Lemma GPTForm_in_range (st : State) :
  audio_in_range st →
  ∃ view,
    GPTForm st = inr view ∧
    ∀ id, currentAudioId st = Some id →
      ∃ query, gptQueries st !! id = Some query ∧
               audio_src view = gptResponseAudioUrl query.
Proof.
  intros Hrange. unfold GPTForm, audio_source.
  destruct (currentAudioId st) as [id|] eqn:Hcurrent.
  - destruct (lookup_lt_is_Some_2 (gptQueries st) id)
      as [query Hquery]; [by apply Hrange|].
    rewrite Hquery. eexists. split; [done|].
    intros id' [= <-]. by exists query.
  - eexists. split; [done|]. by intros id.
Qed.

(** X13.  The send button is pressed only on pages that show the state
    React holds.  Then on every page the component gets to, the
    recording selected for playing, if any, belongs to a recorded
    exchange, in what is rendered and in the state React holds; so the
    next render does not read past the end of the history: [GPTForm]
    returns, the render can happen, and the source of the audio element
    is the recording of the selected exchange.  An event that does not
    change the selection does not change the source either: in
    particular an exchange appended while a recording plays does not
    disturb it. *)
Theorem X13_rendering_never_reads_past_the_history (env : Env) (pg : Page) :
  reachable env send_on_fresh_render pg →
  (∃ view,
     GPTForm (latest pg) = inr view ∧
     step env pg Rendered (rerender pg) ∧
     ∀ id, currentAudioId (latest pg) = Some id →
       ∃ query, gptQueries (latest pg) !! id = Some query ∧
                audio_src view = gptResponseAudioUrl query) ∧
  audio_in_range (rendered pg) ∧
  (∀ ev pg', send_on_fresh_render pg ev → step env pg ev pg' →
     currentAudioId (latest pg') = currentAudioId (latest pg) →
     audio_source (latest pg') = audio_source (latest pg)).
Proof.
  intros Hreach.
  pose proof (reachable_in_step env pg Hreach) as (Hprefix & Hrendered & Hlatest).
  split; [|split; [done|]].
  - destruct (GPTForm_in_range (latest pg) Hlatest) as (view & Hview & Hsource).
    exists view. split; [done|]. split; [|done].
    by apply (step_render env pg view).
  - intros ev pg' Hfresh Hstep Hsame.
    destruct (step_one_submit env pg pg' ev (reachable_one_submit env pg Hreach)
                Hfresh Hstep) as [_ Hgrows].
    unfold audio_source. rewrite Hsame.
    destruct (currentAudioId (latest pg)) as [id|] eqn:Hcurrent; [|done].
    destruct (lookup_lt_is_Some_2 (gptQueries (latest pg)) id)
      as [query Hquery]; [by apply Hlatest|].
    by rewrite Hquery, (prefix_lookup_Some _ _ _ _ Hquery Hgrows).
Qed.

Lemma X13_rendering_never_reads_past_the_history_witness :
  ∃ pg view,
    play_fresh test_env
      [Typed (js "Which is the largest planet?"); Rendered; SendPressed;
       Rendered; CompletionAnswered 0 jupiter;
       SpeechAnswered 0 {| audioFile := Some (js "https://murf.example/1.mp3") |};
       Rendered; PlayPressed 0]
      initial_page = Some pg ∧
    currentAudioId (latest pg) = Some 0 ∧
    GPTForm (latest pg) = inr view ∧
    audio_src view = Some (js "https://murf.example/1.mp3").
Proof.
  destruct (play_fresh test_env
              [Typed (js "Which is the largest planet?"); Rendered; SendPressed;
               Rendered; CompletionAnswered 0 jupiter;
               SpeechAnswered 0 {| audioFile := Some (js "https://murf.example/1.mp3") |};
               Rendered; PlayPressed 0]
              initial_page) as [pg|] eqn:Hplay; [|by vm_compute in Hplay].
  destruct (X13_rendering_never_reads_past_the_history test_env pg)
    as [(view & Hview & _ & Hsource) _].
  { apply (play_fresh_reachable _ _ _ _ (reachable_initial _ _) Hplay). }
  exists pg, view. split; [done|].
  vm_compute in Hplay. injection Hplay as <-.
  split; [done|]. split; [exact Hview|].
  destruct (Hsource 0 eq_refl) as (query & Hquery & ->).
  by injection Hquery as <-.
Defined.

(** ** The keys of the cards *)

Lemma js_cons (a : Ascii.ascii) (s : string) :
  js (String a s) = Ascii.N_of_ascii a :: js s.
Proof. done. Qed.

Lemma js_inj (s1 s2 : string) : js s1 = js s2 → s1 = s2.
Proof.
  revert s2. induction s1 as [|a s1 IH]; intros [|b s2]; try done.
  rewrite !js_cons. intros [= Hab Hs]. f_equal.
  - apply (f_equal Ascii.ascii_of_N) in Hab.
    by rewrite !Ascii.ascii_N_embedding in Hab.
  - by apply IH.
Qed.

Lemma pretty_N_char_digit (x : N) : is_digit (Ascii.N_of_ascii (pretty_N_char x)).
Proof.
  unfold pretty_N_char, is_digit. repeat case_match; simpl; lia.
Qed.

Lemma pretty_N_go_digits (x : N) (s : string) :
  Forall is_digit (js s) → Forall is_digit (js (pretty_N_go x s)).
Proof.
  revert s. induction (N.lt_wf_0 x) as [x _ IH]; intros s Hs.
  destruct (decide (x = 0)%N) as [->|Hx].
  - by rewrite pretty_N_go_0.
  - rewrite pretty_N_go_step by lia. apply IH.
    + apply N.div_lt; lia.
    + rewrite js_cons. constructor; [apply pretty_N_char_digit|done].
Qed.

Lemma pretty_nat_digits (n : nat) : Forall is_digit (js (pretty n)).
Proof.
  unfold pretty, pretty_nat, pretty, pretty_N. case_decide.
  - repeat constructor; unfold is_digit; simpl; lia.
  - apply pretty_N_go_digits. constructor.
Qed.

(** Two lists that start with digits and go on with something else
    start with the same digits when they are equal. *)
Lemma digits_prefix_unique (l1 l2 r1 r2 : list N) (x y : N) :
  Forall is_digit l1 → Forall is_digit l2 → ¬ is_digit x → ¬ is_digit y →
  l1 ++ x :: r1 = l2 ++ y :: r2 → l1 = l2.
Proof.
  intros H1. revert l2. induction H1 as [|c l1 Hc _ IH]; intros l2 H2 Hx Hy.
  - destruct H2 as [|c l2 Hc _]; [done|]. intros [= -> _]. by destruct Hx.
  - destruct H2 as [|c' l2 Hc' H2]; simpl.
    + intros [= -> _]. by destruct Hy.
    + intros [= -> Hrest]. f_equal. by apply IH.
Qed.

Lemma item_key_inj (q1 q2 : js_string) (i j : nat) :
  item_key q1 i = item_key q2 j → i = j.
Proof.
  unfold item_key. intros H. apply (f_equal reverse) in H.
  rewrite !reverse_app in H.
  change (reverse (js " + ")) with [32; 43; 32]%N in H.
  rewrite <- !app_assoc in H. simpl in H.
  assert (reverse (js (pretty i)) = reverse (js (pretty j))) as Hdigits.
  { eapply (digits_prefix_unique _ _ _ _ 32%N 32%N); [| | | |exact H].
    - apply Forall_reverse, pretty_nat_digits.
    - apply Forall_reverse, pretty_nat_digits.
    - unfold is_digit. lia.
    - unfold is_digit. lia. }
  apply (inj reverse), js_inj in Hdigits. by apply (inj pretty) in Hdigits.
Qed.

(** X14.  The keys React gets for the cards are pairwise distinct,
    whatever the questions are (also when a question is asked twice, or
    ends like a key): the index alone tells two keys apart. *)
Theorem X14_card_keys_are_distinct (st : State) : NoDup (cards_of st).*1.
Proof.
  apply NoDup_alt. intros i j key Hi Hj.
  unfold cards_of in Hi, Hj.
  rewrite list_lookup_fmap, list_lookup_imap in Hi, Hj.
  destruct (gptQueries st !! i) as [qi|]; [|done].
  destruct (gptQueries st !! j) as [qj|]; [|done].
  simpl in Hi, Hj. injection Hi as Hi. injection Hj as Hj.
  rewrite <- Hj in Hi. by apply item_key_inj in Hi.
Qed.

(** ** The cards and their buttons *)

(** X15.  The [i]-th card shows the question of the [i]-th exchange, and
    its button passes [i] to [handleAudioPlay]; the button reads Pause
    exactly when that exchange is the one selected, so at most one card
    reads Pause.  Pressing a button that reads Play selects the recording
    of its own exchange as the source of the audio element; pressing the
    one that reads Pause clears the source.  Neither press changes the
    prompt, the status or the history. *)
Theorem X15_each_card_plays_its_own_answer
    (st : State) (i : nat) (key : js_string) (card : GPTQueryItemView) :
  cards_of st !! i = Some (key, card) →
  ∃ query,
    gptQueries st !! i = Some query ∧
    shown_question card = question query ∧
    on_click card = i ∧
    (button_text card = "Pause" ↔ currentAudioId st = Some i) ∧
    (∀ j key' card', cards_of st !! j = Some (key', card') →
       button_text card = "Pause" → button_text card' = "Pause" → i = j) ∧
    ∀ log,
      let '(st', log', waiting) :=
        advance (handleAudioPlay st (on_click card)) st log in
      log' = log ∧ waiting = None ∧
      prompt st' = prompt st ∧ status st' = status st ∧
      gptQueries st' = gptQueries st ∧
      audio_source st' =
        inr (if decide (button_text card = "Pause") then None
             else gptResponseAudioUrl query).
Proof.
  unfold cards_of. rewrite list_lookup_imap.
  destruct (gptQueries st !! i) as [query|] eqn:Hquery; [|done].
  simpl. intros [= <- <-]. exists query.
  assert (∀ j, (if decide (currentAudioId st = Some j)
                then "Pause" else "Play") = "Pause"
               ↔ currentAudioId st = Some j) as Hpause.
  { intros j. by case_decide. }
  split; [done|]. split; [done|]. split; [done|]. split; [apply Hpause|].
  split.
  - intros j key' card'. rewrite list_lookup_imap.
    destruct (gptQueries st !! j) as [query'|]; [|done].
    simpl. intros [= <- <-]. simpl. rewrite !Hpause. congruence.
  - intros log. unfold handleAudioPlay. simpl.
    destruct (decide (currentAudioId st = Some i)) as [Hplaying|Hplaying];
      simpl; repeat split; unfold audio_source; simpl.
    by rewrite Hquery.
Qed.

Lemma X15_each_card_plays_its_own_answer_witness :
  ∃ query,
    gptQueries asked !! 1 = Some query ∧
    audio_source (advance (handleAudioPlay asked 1) asked []).1.1
    = inr (gptResponseAudioUrl query).
Proof.
  destruct (X15_each_card_plays_its_own_answer asked 1
              (item_key (js "How big is it?") 1)
              (GPTQueryItem {| props_question := js "How big is it?";
                               gptResponseId := 1;
                               currentPlayingAudioId := None |}))
    as (query & Hquery & _ & _ & _ & _ & Hpress); [done|].
  exists query. split; [done|].
  specialize (Hpress []). simpl in Hpress.
  by destruct Hpress as (_ & _ & _ & _ & _ & Hsource).
Defined.

(** ** After a failure *)

Lemma step_locked (env : Env) (pg pg' : Page) :
  locked pg → some_event env pg pg' →
  locked pg' ∧
  gptQueries (latest pg') = gptQueries (latest pg) ∧
  prompt (latest pg') = prompt (latest pg) ∧
  sent pg' = sent pg.
Proof.
  intros (Hrendered & Hlatest & Hnone) [ev Hstep]. destruct Hstep
    as [pg value Henabled | pg Henabled | pg id Hid | pg | pg view Hview
       | pg i k r Hsplit | pg i k r Hsplit | pg i p Hsplit];
    try (by destruct Henabled);
    try (by rewrite Hnone, lookup_nil in Hsplit).
  - destruct (dispatch_handleAudioPlay (rendered pg) id (in_flight pg) pg)
      as (selection & _ & ->).
    by repeat split.
  - rewrite (dispatch_ended _ _ _ (setCurrentAudioId None (latest pg)) (sent pg))
      by done.
    by repeat split.
  - by repeat split.
Qed.

Lemma rtc_locked (env : Env) (pg pg' : Page) :
  locked pg → rtc (some_event env) pg pg' →
  locked pg' ∧
  gptQueries (latest pg') = gptQueries (latest pg) ∧
  prompt (latest pg') = prompt (latest pg) ∧
  sent pg' = sent pg.
Proof.
  intros Hlocked Hsteps. induction Hsteps as [pg|pg pg1 pg' Hstep _ IH]; [done|].
  destruct (step_locked env pg pg1 Hlocked Hstep) as (Hlocked1 & Hq1 & Hp1 & Hs1).
  destruct (IH Hlocked1) as (Hlocked' & Hq' & Hp' & Hs').
  repeat split; [apply Hlocked'..|congruence|congruence|congruence].
Qed.

(** X16.  The send button is pressed only on pages that show the state
    React holds.  When the request a submission waits for is rejected,
    or its completion comes back without a choice, nothing is in flight
    any more and the status React holds stays [LOADING]: from the next
    render on the form is disabled.  And a form disabled with nothing in
    flight stays so whatever happens, with no restriction on the events:
    the prompt is never edited, nothing is submitted, no request is
    sent and the history never changes.  Only the recordings can still
    be played. *)
Theorem X16_a_failed_submission_disables_the_form_for_good
    (env : Env) (pg : Page) :
  reachable env send_on_fresh_render pg →
  (∀ i pg1, step env pg (RequestRejected i) pg1 → locked (rerender pg1)) ∧
  (∀ i r pg1,
     choices r = [] → step env pg (CompletionAnswered i r) pg1 →
     locked (rerender pg1)) ∧
  (∀ failed pg',
     locked failed → rtc (some_event env) failed pg' →
     ¬ form_enabled pg' ∧
     (∀ pg'', ¬ step env pg' SendPressed pg'') ∧
     in_flight pg' = [] ∧
     sent pg' = sent failed ∧
     gptQueries (latest pg') = gptQueries (latest failed) ∧
     prompt (latest pg') = prompt (latest failed)).
Proof.
  intros Hinv%reachable_one_submit. split; [|split].
  - intros i pg1 Hstep.
    inversion Hstep as [| | | | | | |pg0 i0 p Hsplit]; subst.
    destruct (one_submit_single env pg _ _ Hinv Hsplit)
      as (-> & Hone & Hloading & _).
    unfold locked. simpl. by rewrite Hone.
  - intros i r pg1 Hnone Hstep.
    inversion Hstep as [| | | | |pg0 i0 k r0 Hsplit| |]; subst.
    destruct (one_submit_single env pg _ _ Hinv Hsplit)
      as (-> & Hone & Hloading & render & Hqueries & Hblank & Hstops).
    rewrite Hone. cbn [delete list_delete].
    revert Hstops. unfold handlePromptSubmit. rewrite Hblank.
    unfold generateChatGPTResponse, generateSpeechWithKey. cbn [stops_at].
    intros [[= ->] | [r0 H]].
    + unfold dispatch. rewrite Hnone. by cbn.
    + destruct (choices r0); cbn [stops_at] in H; [done|].
      by destruct H as [? | [r1 []]].
  - intros failed pg' Hlocked Hsteps.
    destruct (rtc_locked env failed pg' Hlocked Hsteps)
      as ((Hrendered & Hlatest & Hnone) & Hq & Hp & Hs).
    repeat split; try done.
    + by intros Henabled.
    + intros pg'' Hstep. inversion Hstep as [|pg0 Henabled| | | | | |].
      by apply Henabled.
Qed.

Lemma X16_a_failed_submission_disables_the_form_for_good_witness :
  ∃ pg,
    play_fresh test_env
      [Typed (js "Which is the largest planet?"); Rendered; SendPressed;
       RequestRejected 0; Rendered]
      initial_page = Some pg ∧
    locked pg ∧
    play test_env [Typed (js "Again"); SendPressed] pg = None.
Proof.
  destruct (X16_a_failed_submission_disables_the_form_for_good test_env
              (submitted "Which is the largest planet?"))
    as (Hrejected & _ & _).
  { apply reachable_submitted. by vm_compute. }
  eexists. split; [by vm_compute|]. split; [|by vm_compute].
  apply (Hrejected 0
           {| rendered := rendered (submitted "Which is the largest planet?");
              latest := latest (submitted "Which is the largest planet?");
              in_flight := [];
              sent := sent (submitted "Which is the largest planet?") |}).
  apply happen_step. by vm_compute.
Defined.

(** X17.  Presses of the send button on a page that does not show the
    state React holds can break the component.  The button is pressed
    twice before the component renders again, and the second submission
    is answered late: by then the first has ended, a second question has
    been asked and answered, and the recording of its answer has been
    selected.  The late submission sets the history to the one of its
    render, empty, with its own exchange: the history React holds has one
    exchange, the recording selected is the second, and the next render
    throws on [gptQueries[currentAudioId].gptResponseAudioUrl]. *)
Theorem X17_a_stale_press_can_break_the_render (env : Env) :
  ∃ pg,
    play env late_answer initial_page = Some pg ∧
    reachable env any_event pg ∧
    in_flight pg = [] ∧
    length (gptQueries (rendered pg)) = 2 ∧
    length (gptQueries (latest pg)) = 1 ∧
    currentAudioId (latest pg) = Some 1 ∧
    GPTForm (latest pg)
    = inl (TypeError "Cannot read properties of undefined (reading 'gptResponseAudioUrl')") ∧
    ∀ pg', ¬ step env pg Rendered pg'.
Proof.
  destruct (play env late_answer initial_page) as [pg|] eqn:Hplay;
    [|by vm_compute in Hplay].
  exists pg. split; [done|]. split.
  { apply (play_reachable _ _ _ _ (reachable_initial _ _) Hplay). }
  vm_compute in Hplay. injection Hplay as <-.
  repeat split; try done.
  intros pg' Hstep. inversion Hstep as [| | | |pg0 view Hview| | |].
  by vm_compute in Hview.
Qed.

(** ** A submission that succeeds *)

(** X18.  A call of [handlePromptSubmit] on a prompt that is not blank
    and that returns has sent exactly two requests, the completion
    request and then the speech request; the text given to the speech
    service, in the voice en-US-marcus, is the very answer recorded in
    the new exchange; the prompt is cleared.  So a second press of the
    send button right after does nothing: the question is not asked
    twice. *)
Theorem X18_what_is_narrated_is_what_is_recorded
    (env : Env) (svc : Services) (s s' : Session) :
  is_blank (prompt (ui s)) = false →
  run svc (handlePromptSubmit env (ui s)) s = (s', inr tt) →
  (∃ choice speech,
     calls s' = calls s ++ [CallOpenAI (completion_request (ui s));
                            CallMurf speech_url (speech_input choice)
                              (speech_headers env)] ∧
     gptQueries (ui s') = gptQueries (ui s) ++ [exchange (ui s) choice speech] ∧
     text (speech_input choice) = gptResponse (exchange (ui s) choice speech) ∧
     voiceId (speech_input choice) = "en-US-marcus") ∧
  prompt (ui s') = [] ∧
  run svc (handlePromptSubmit env (ui s')) s' = (s', inr tt).
Proof.
  intros Hblank.
  unfold handlePromptSubmit at 1.
  unfold generateChatGPTResponse, generateSpeechWithKey.
  cbv zeta. rewrite Hblank. cbn [run ui calls].
  destruct (createChatCompletion svc _ _) as [e|gptRes]; [done|].
  destruct (choices gptRes) as [|choice others]; [done|].
  cbn [run ui calls].
  destruct (axios_post svc _ _ _ _) as [e|speech]; [done|].
  cbn [run ui calls]. intros [= <-]. cbn [ui calls].
  split; [|split].
  - exists choice, speech. cbn. rewrite <- app_assoc. done.
  - done.
  - unfold handlePromptSubmit. done.
Qed.

Lemma X18_what_is_narrated_is_what_is_recorded_witness :
  prompt (ui (run parrot
                (handlePromptSubmit test_env
                   (ui (asking "Which is the largest planet?")))
                (asking "Which is the largest planet?")).1) = [].
Proof.
  destruct (X18_what_is_narrated_is_what_is_recorded test_env parrot
              (asking "Which is the largest planet?")
              (run parrot
                 (handlePromptSubmit test_env
                    (ui (asking "Which is the largest planet?")))
                 (asking "Which is the largest planet?")).1)
    as (_ & Hprompt & _); [by vm_compute..|done].
Defined.

End ChatMore.
